(** * PeakMatching: PTM matching and condition alignment of elution peaks

    A shallow embedding of [PeakMatching.py].  Data frames are lists of
    records, float cells are rationals with an explicit NaN, the module
    globals ([group_cols], [conditions], [ptms], [threshold]) are a
    configuration record, and Python exceptions are an explicit result.
    The apex difference of [ptm_eval] is computed in binary64, with the
    rounding of the subtraction; the score of the aligner is computed on the
    exact values of the cells. *)

From Stdlib Require Import List String Bool Arith ZArith QArith Qabs Lia Lqa.
From Stdlib Require Import Sorted OrderedTypeEx Permutation SpecFloat.
Import ListNotations.

Local Open Scope string_scope.
Local Open Scope list_scope.

(** ** Float cells and numpy comparisons *)

(** A float64 cell: the rational a finite float64 denotes, or NaN ([None]).
    The comparisons below are exact on float64 as they are here; [np_sub] is
    the difference before rounding. *)
Definition float := option Q.

Definition Qltb (a b : Q) : bool := negb (Qle_bool b a).

(** [a < b] on cells: every comparison with NaN is [False]. *)
Definition np_lt (a b : float) : bool :=
  match a, b with
  | Some x, Some y => Qltb x y
  | _, _ => false
  end.

Definition np_gt (a b : float) : bool := np_lt b a.

(** [a == b] on cells: NaN is equal to nothing, itself included. *)
Definition np_eq (a b : float) : bool :=
  match a, b with
  | Some x, Some y => Qeq_bool x y
  | _, _ => false
  end.

Definition np_sub (a b : float) : float :=
  match a, b with
  | Some x, Some y => Some (x - y)%Q
  | _, _ => None
  end.

(** ** binary64 *)

(** The binary64 nearest to an integer (ties to even), as the conversion of a
    Python [int] operand gives it. *)
Definition b64_of_Z (z : Z) : spec_float := binary_normalize 53 1024 z 0 false.

(** The binary64 nearest to a rational (ties to even): the rational itself
    when it is the value of a binary64, as the value of a cell is. *)
Definition b64_of_Q (q : Q) : spec_float :=
  match Qnum q with
  | Z0 => S754_zero false
  | Zpos n => SFdiv 53 1024 (S754_finite false n 0) (S754_finite false (Qden q) 0)
  | Zneg n => SFdiv 53 1024 (S754_finite true n 0) (S754_finite false (Qden q) 0)
  end.

Definition b64_of_cell (a : float) : spec_float :=
  match a with
  | Some q => b64_of_Q q
  | None => S754_nan
  end.

(** [a - b] on two float64 columns: rounded to nearest, ties to even; an
    overflow gives an infinity. *)
Definition b64_sub (a b : spec_float) : spec_float := SFsub 53 1024 a b.

Definition np_isnan (a : float) : bool :=
  match a with Some _ => false | None => true end.

(** ** Exceptions *)

Inductive exn := UnboundLocalError | TypeError | ValueError | IndexError.

Inductive result (A : Type) :=
| Ok (a : A)
| Raise (e : exn).
Arguments Ok {A} a.
Arguments Raise {A} e.

Definition bind {A B} (r : result A) (k : A -> result B) : result B :=
  match r with
  | Ok a => k a
  | Raise e => Raise e
  end.

Notation "x <- r ;; k" := (bind r (fun x => k))
  (at level 61, r at next level, right associativity).

(** ** The peak table *)

(** Identity columns a group may be keyed on. *)
Inductive gcol := MatchId | ProteinId | Genes | Cluster | Replicate.

Definition gcol_eqb (a b : gcol) : bool :=
  match a, b with
  | MatchId, MatchId | ProteinId, ProteinId | Genes, Genes
  | Cluster, Cluster | Replicate, Replicate => true
  | _, _ => false
  end.

(** One row of [peak_table].  String cells may be missing. *)
Record peak := mkPeak {
  match_id : option string;
  protein_id : option string;
  genes : option string;
  cluster : option string;
  replicate : option string;
  condition : string;
  ptm : string;
  peak_id : option string;
  peak_apex : float;
  peak_left : float;
  peak_right : float
}.

(** The module globals set in [main]. *)
Record config := mkConfig {
  group_cols : list gcol;
  conditions : list string;
  ptms : list string;
  threshold : Z
}.

Definition get_gcol (c : gcol) (p : peak) : option string :=
  match c with
  | MatchId => match_id p
  | ProteinId => protein_id p
  | Genes => genes p
  | Cluster => cluster p
  | Replicate => replicate p
  end.

(** ** [ptm_eval] *)

(** A row of [global_df.merge(ptm_df_i, how='left', suffixes=('', '_ptm'))]:
    the global peak and, when a channel row has the same key, that row;
    otherwise every [_ptm] column is missing. *)
Record merged := mkMerged {
  m_global : peak;
  m_ptm : option peak
}.

Definition peak_apex_ptm (r : merged) : float :=
  match m_ptm r with Some p => peak_apex p | None => None end.
Definition peak_left_ptm (r : merged) : float :=
  match m_ptm r with Some p => peak_left p | None => None end.
Definition peak_right_ptm (r : merged) : float :=
  match m_ptm r with Some p => peak_right p | None => None end.
Definition peak_id_ptm (r : merged) : option string :=
  match m_ptm r with Some p => peak_id p | None => None end.
Definition cluster_ptm (r : merged) : option string :=
  match m_ptm r with Some p => cluster p | None => None end.

Definition ptm_eval_row (r : merged) (apex_diff_cutoff : spec_float) : Z :=
  (* apex condition *)
  let peak_apex_diff :=
    SFabs (b64_sub (b64_of_cell (peak_apex (m_global r)))
                   (b64_of_cell (peak_apex_ptm r))) in
  let apex_condition := SFltb peak_apex_diff apex_diff_cutoff in
  (* overlap condition *)
  let overlap_condition :=
    negb (np_lt (peak_right (m_global r)) (peak_left_ptm r)
          || np_gt (peak_left (m_global r)) (peak_right_ptm r)) in
  (* pass evaluation *)
  if apex_condition && overlap_condition then 1%Z else 0%Z.

(** [apex_diff_cutoff] is the binary64 the comparison sees. *)
Definition ptm_eval (cond_ptm_merge_df : list merged)
           (apex_diff_cutoff : spec_float) : list Z :=
  map (fun r => ptm_eval_row r apex_diff_cutoff) cond_ptm_merge_df.

(** The apex condition of the specification, on the exact values of the two
    apexes. *)
Definition apex_within (r : merged) (cutoff : Q) : Prop :=
  exists a b, peak_apex (m_global r) = Some a /\ peak_apex_ptm r = Some b
              /\ (Qabs (a - b) < cutoff)%Q.

(** The apex difference as binary64 has it, and the apex condition on it. *)
Definition apex_diff64 (r : merged) : spec_float :=
  SFabs (b64_sub (b64_of_cell (peak_apex (m_global r)))
                 (b64_of_cell (peak_apex_ptm r))).

Definition apex_within64 (r : merged) (cutoff : spec_float) : Prop :=
  SFltb (apex_diff64 r) cutoff = true.

Definition intervals_disjoint (r : merged) : Prop :=
  (exists gr pl, peak_right (m_global r) = Some gr /\ peak_left_ptm r = Some pl
                 /\ (gr < pl)%Q)
  \/ (exists gl pr, peak_left (m_global r) = Some gl /\ peak_right_ptm r = Some pr
                    /\ (pr < gl)%Q).


(** ** Data-frame helpers *)

Definition ostr_eqb (a b : option string) : bool :=
  match a, b with
  | Some x, Some y => String.eqb x y
  | None, None => true
  | _, _ => false
  end.

(** Equality of float cells used as join keys: [merge] pairs a missing key
    with a missing key. *)
Definition key_float_eqb (a b : float) : bool :=
  match a, b with
  | Some x, Some y => Qeq_bool x y
  | None, None => true
  | _, _ => false
  end.

(** [DataFrame.drop_duplicates()]: the first row of every class is kept. *)
Fixpoint drop_duplicates {A} (eqb : A -> A -> bool) (df : list A) : list A :=
  match df with
  | [] => []
  | r :: rest => r :: filter (fun r' => negb (eqb r r')) (drop_duplicates eqb rest)
  end.

(** [left.merge(right, on=..., how='left')]: left order is kept, every left
    row is paired with each right row of equal key, or with nothing. *)
Definition merge_left {A B} (on : A -> B -> bool) (left : list A) (right : list B)
  : list (A * option B) :=
  flat_map (fun a =>
              match filter (on a) right with
              | [] => [(a, None)]
              | ms => map (fun b => (a, Some b)) ms
              end) left.

(** Keys of [groupby] come out sorted. *)
Fixpoint insert_key (s : string) (keys : list string) : list string :=
  match keys with
  | [] => [s]
  | k :: rest =>
      match String.compare s k with
      | Lt => s :: keys
      | Eq => keys
      | Gt => k :: insert_key s rest
      end
  end.

Definition sorted_keys (l : list string) : list string :=
  fold_right insert_key [] l.

Definition groupby {A} (key : A -> string) (df : list A) : list (string * list A) :=
  map (fun k => (k, filter (fun r => String.eqb (key r) k) df))
      (sorted_keys (map key df)).

Fixpoint mapM {A B} (f : A -> result B) (l : list A) : result (list B) :=
  match l with
  | [] => Ok []
  | a :: rest => b <- f a ;; bs <- mapM f rest ;; Ok (b :: bs)
  end.

(** ** [ptm_matching] *)

Definition in_group_cols (cfg : config) (c : gcol) : bool :=
  existsb (gcol_eqb c) (group_cols cfg).

(** Join key [group_cols + ['condition']]. *)
Definition key_eqb (cfg : config) (a b : peak) : bool :=
  forallb (fun c => ostr_eqb (get_gcol c a) (get_gcol c b)) (group_cols cfg)
  && String.eqb (condition a) (condition b).

Definition skeleton_cell (cfg : config) (c : gcol) (p : peak) : option string :=
  if in_group_cols cfg c then get_gcol c p else None.

(** A row of [skeleton_df.copy().assign(ptm=p)]: the key columns of [p],
    everything else missing. *)
Definition skeleton_row (cfg : config) (ptm_name : string) (p : peak) : peak :=
  {| match_id := skeleton_cell cfg MatchId p;
     protein_id := skeleton_cell cfg ProteinId p;
     genes := skeleton_cell cfg Genes p;
     cluster := skeleton_cell cfg Cluster p;
     replicate := skeleton_cell cfg Replicate p;
     condition := condition p;
     ptm := ptm_name;
     peak_id := None;
     peak_apex := None;
     peak_left := None;
     peak_right := None |}.

Definition py_str (o : option string) : string :=
  match o with Some s => s | None => "None" end.

Definition replace_ptm_col_values (flag : Z) (col : option string) : option string :=
  if (flag =? 1)%Z then Some (py_str col) else None.

(** [filter(None, x)]: [None] and the empty string are dropped. *)
Definition py_filter_none (x : list (option string)) : list string :=
  flat_map (fun o => match o with
                     | Some s => if String.eqb s "" then [] else [s]
                     | None => []
                     end) x.

Definition join (l : list string) : string := String.concat ";" l.

(** Key [group_cols + ['peak_apex', 'condition']] of the summary. *)
Definition akey_eqb (cfg : config) (a b : peak) : bool :=
  key_eqb cfg a b && key_float_eqb (peak_apex a) (peak_apex b).

(** [groupby] drops the rows whose key has a missing cell. *)
Definition key_has_nan (cfg : config) (p : peak) : bool :=
  existsb (fun c => match get_gcol c p with Some _ => false | None => true end)
          (group_cols cfg)
  || np_isnan (peak_apex p).

(** A row of [global_ptm_merge_i_summary] before aggregation.  The column
    [cluster_ptm] is selected, and read, only when [cluster] is not a group
    column. *)
Record summary_row := mkSummaryRow {
  s_global : peak;
  s_flag : Z;
  s_cluster_ptm : option string;
  s_peak_id_ptm : option string
}.

(** A row of [global_ptm_merge_i_summary] after [groupby(...).agg(...)]. *)
Record summary := mkSummary {
  g_key : peak;
  g_count : Z;
  g_cluster_ptm : string;
  g_peak_id_ptm : string
}.

Definition summary_rows (global_ptm_merge_i : list merged) (flags : list Z)
  : list summary_row :=
  map (fun mf => let '(m, f) := mf in
                 {| s_global := m_global m;
                    s_flag := f;
                    s_cluster_ptm := replace_ptm_col_values f (cluster_ptm m);
                    s_peak_id_ptm := replace_ptm_col_values f (peak_id_ptm m) |})
      (combine global_ptm_merge_i flags).

(** [groupby(group_cols+['peak_apex','condition'], as_index=False).agg(...)].
    The groups are listed by first appearance; pandas sorts them, which the
    merge that follows does not see. *)
Definition groupby_agg (cfg : config) (rows : list summary_row) : list summary :=
  let rows := filter (fun r => negb (key_has_nan cfg (s_global r))) rows in
  map (fun k =>
         let grp := filter (fun r => akey_eqb cfg k (s_global r)) rows in
         {| g_key := k;
            g_count := fold_right Z.add 0%Z (map s_flag grp);
            g_cluster_ptm := join (py_filter_none (map s_cluster_ptm grp));
            g_peak_id_ptm := join (py_filter_none (map s_peak_id_ptm grp)) |})
      (drop_duplicates (akey_eqb cfg) (map s_global rows)).

(** A cell of a column added by the matcher. *)
Inductive cell := NaN | IntCell (z : Z) | StrCell (s : string).

(** A row of [final_global_df]: the global peak (its [ptm] column is dropped,
    the field is kept but not read), the column [global], and the columns
    merged in, by name. *)
Record erow := mkErow {
  e_peak : peak;
  e_global : Z;
  e_extra : list (string * cell)
}.

Definition set_cluster (p : peak) (c : option string) : peak :=
  {| match_id := match_id p; protein_id := protein_id p; genes := genes p;
     cluster := c; replicate := replicate p; condition := condition p;
     ptm := ptm p; peak_id := peak_id p; peak_apex := peak_apex p;
     peak_left := peak_left p; peak_right := peak_right p |}.

(** The body of the loop over [ptm_df_list]: the value bound to
    [final_global_df] by one iteration. *)
Definition channel_table (cfg : config) (global_df : list peak)
           (ptm_name : string) (ptm_df_i : list peak) : result (list erow) :=
  (* merge global and ptm dataframes *)
  let global_ptm_merge_i :=
    map (fun gp => mkMerged (fst gp) (snd gp))
        (merge_left (key_eqb cfg) global_df ptm_df_i) in
  (* get valid ptm matches - run evaluation function *)
  let flags := ptm_eval global_ptm_merge_i (b64_of_Z (threshold cfg)) in
  let global_ptm_merge_i_summary :=
    groupby_agg cfg (summary_rows global_ptm_merge_i flags) in
  (* merge ptm counts and clusters *)
  let final_global_df :=
    merge_left (fun g s => akey_eqb cfg g (g_key s)) global_df
               global_ptm_merge_i_summary in
  if in_group_cols cfg Cluster then
    Ok (map (fun gs =>
               match snd gs with
               | Some s =>
                   mkErow (fst gs) 1%Z
                          [(ptm_name, IntCell (g_count s));
                           ("peak_id_ptm", StrCell (g_peak_id_ptm s))]
               | None =>
                   mkErow (fst gs) 1%Z [(ptm_name, NaN); ("peak_id_ptm", NaN)]
               end) final_global_df)
  else
    (* concatenated string of cluster_ptm to the cluster column; a missing
       cluster_ptm is a float, which str.join refuses *)
    mapM (fun gs =>
            match snd gs with
            | Some s =>
                Ok (mkErow
                      (set_cluster (fst gs)
                         (Some (join (py_filter_none
                                        [cluster (fst gs); Some (g_cluster_ptm s)]))))
                      1%Z
                      [(ptm_name, IntCell (g_count s));
                       ("peak_id_ptm", StrCell (g_peak_id_ptm s))])
            | None => Raise TypeError
            end) final_global_df.

(** The rows of [ptm_df] after the loop over [ptms] has added, for every
    channel the group lacks, the skeleton rows. *)
Definition add_missing_ptms (cfg : config) (skeleton_df ptm_df : list peak)
  : list peak :=
  fold_left (fun ptm_df p =>
               if negb (existsb (String.eqb p) (map ptm ptm_df))
                  && negb (String.eqb p "global")
               then ptm_df ++ map (skeleton_row cfg p) skeleton_df
               else ptm_df)
            (ptms cfg) ptm_df.

(** [ptm_matching]: [Ok None] is the [return None] of a group without global
    peaks.  [final_global_df] is rebound by every iteration and is unbound
    when there is no iteration. *)
Definition ptm_matching (cfg : config) (input_df : list peak)
  : result (option (list erow)) :=
  let skeleton_df := drop_duplicates (key_eqb cfg) input_df in
  let global_df := filter (fun r => String.eqb (ptm r) "global") input_df in
  if (List.length global_df =? 0)%nat then Ok None
  else
    let ptm_df := filter (fun r => negb (String.eqb (ptm r) "global")) input_df in
    let ptm_df := add_missing_ptms cfg skeleton_df ptm_df in
    let ptm_df_list := groupby ptm ptm_df in
    final_global_df <-
      fold_left (fun acc grp =>
                   _ <- acc ;;
                   t <- channel_table cfg global_df (fst grp) (snd grp) ;;
                   Ok (Some t))
                ptm_df_list (Ok None) ;;
    match final_global_df with
    | Some t => Ok (Some t)
    | None => Raise UnboundLocalError
    end.

(** ** Condition peak matching: scoring *)

(** A row of [index_combinations] (row indices held as floats, NaN for "no
    peak in this condition") and a row of [peak_combinations]. *)
Definition ipath := list (option nat).
Definition apath := list float.

Definition index_eqb (a b : option nat) : bool :=
  match a, b with
  | Some x, Some y => Nat.eqb x y
  | _, _ => false
  end.

Definition Qsum (l : list Q) : Q := fold_right Qplus 0%Q l.

Definition present (path : apath) : list Q :=
  flat_map (fun x => match x with Some q => [q] | None => [] end) path.

(** [np.mean(path, where=~np.isnan(path))]: NaN when nothing is selected. *)
Definition np_mean_where_notnan (path : apath) : float :=
  match present path with
  | [] => None
  | vs => Some (Qsum vs / inject_Z (Z.of_nat (List.length vs)))%Q
  end.

(** [np.nan_to_num(x, nan=threshold)] copies the Python int [threshold] into
    the float64 array: an int that fits neither an int64 nor a uint64 is an
    object, which cannot be cast to float64. *)
Definition fits_64_bits (z : Z) : bool :=
  ((- 2 ^ 63 <=? z) && (z <? 2 ^ 64))%Z.

Definition nan_to_num (x : list float) (nan : Z) : result (list Q) :=
  if fits_64_bits nan
  then Ok (map (fun d => match d with Some q => q | None => inject_Z nan end) x)
  else Raise TypeError.

Definition path_mean_dist (threshold : Z) (path : apath) : result (list Q) :=
  let path_dist := map (fun x => np_sub x (np_mean_where_notnan path)) path in
  path_dist_wThreshold <- nan_to_num path_dist threshold ;;
  let path_dist_sq := map (fun d => d * d)%Q path_dist_wThreshold in
  Ok path_dist_sq.

(** [path_score]; a path without slots divides 0.0 by 0 and scores NaN. *)
Definition path_score (threshold : Z) (path : apath) : result float :=
  path_dist <- path_mean_dist threshold path ;;
  match path_dist with
  | [] => Ok None
  | _ =>
      let path_var := (Qsum path_dist / inject_Z (Z.of_nat (List.length path_dist)))%Q in
      Ok (Some (1 / (path_var + 1))%Q)
  end.

(** ** Condition peak matching: the search space *)

Definition np_maximum (a b : float) : float :=
  match a, b with
  | Some x, Some y => Some (if Qle_bool x y then y else x)
  | _, _ => None
  end.

(** [arr.max()] of a non-empty array; NaN wins. *)
Definition np_max (l : list float) : float :=
  match l with
  | [] => None
  | x :: rest => fold_left np_maximum rest x
  end.

(** [np.where(mask)[0][0]]. *)
Fixpoint where_first {A} (mask : A -> bool) (l : list A) : option nat :=
  match l with
  | [] => None
  | x :: rest => if mask x then Some 0%nat else option_map S (where_first mask rest)
  end.

(** [np.where(arr == top)[0]] lists a row once for every column in which it
    equals [top]; [row_matches] says whether it is listed at all. *)
Definition row_matches {A} (eqb : A -> A -> bool) (top r : list A) : bool :=
  existsb (fun tr => eqb (snd tr) (fst tr)) (combine top r).

(** [np.delete(arr, np.where(arr == top)[0], axis=0)]. *)
Definition np_delete_matching {A} (eqb : A -> A -> bool) (arr : list (list A))
           (top : list A) : list (list A) :=
  filter (fun r => negb (row_matches eqb top r)) arr.

(** The rows of the transposed and reshaped [np.meshgrid] of the lists: with
    the default 'xy' indexing the second list varies fastest, then the first,
    then the third, the fourth, ...; without lists the reshape fails. *)
Definition meshgrid_rows {A} (lists : list (list A)) : result (list (list A)) :=
  match lists with
  | [] => Raise ValueError
  | [l1] => Ok (map (fun x => [x]) l1)
  | l1 :: l2 :: rest =>
      Ok (fold_left
            (fun pool l => flat_map (fun x => map (fun r => r ++ [x]) pool) l)
            rest
            (flat_map (fun x1 => map (fun x2 => [x1; x2]) l2) l1))
  end.

Fixpoint list_eqb {A} (eqb : A -> A -> bool) (a b : list A) : bool :=
  match a, b with
  | [], [] => true
  | x :: a', y :: b' => eqb x y && list_eqb eqb a' b'
  | _, _ => false
  end.

(** A row of the table handed to [peak_alignment]: the columns it reads
    ([index], the group columns, [condition], [peak_apex]) and the enriched
    row they come from; a skeleton row has neither index nor data. *)
Record arow := mkArow {
  a_index : option nat;
  a_group : list (option string);
  a_condition : string;
  a_peak_apex : float;
  a_row : option erow
}.

(** [fill_values]: every present entry is replaced by the [fill_column] cell
    of the first row of that index, and stays the index when there is none. *)
Definition fill_entry {V} (of_index : nat -> V) (nan : V) (fill_df : list arow)
           (fill_column : arow -> V) (entry : option nat) : V :=
  match entry with
  | Some i =>
      match filter (fun r => index_eqb (a_index r) (Some i)) fill_df with
      | r :: _ => fill_column r
      | [] => of_index i
      end
  | None => nan
  end.

Definition fill_values {V} (of_index : nat -> V) (nan : V)
           (index_combinations : list ipath) (fill_df : list arow)
           (fill_column : arow -> V) : list (list V) :=
  map (map (fill_entry of_index nan fill_df fill_column)) index_combinations.

Definition float_of_index (i : nat) : float := Some (inject_Z (Z.of_nat i)).

(** ** Condition peak matching: the greedy loop *)

Inductive step :=
| Break
| Accept (top : ipath) (index_combinations : list ipath) (peak_combinations : list apath)
| Fail (e : exn).

(** One iteration of the loop of [peak_alignment]. *)
Definition align_step (threshold : Z) (index_combinations : list ipath)
           (peak_combinations : list apath) : step :=
  match peak_combinations with
  | [] => Fail ValueError
  | _ =>
      match mapM (path_score threshold) peak_combinations with
      | Raise e => Fail e
      | Ok path_scores =>
          match where_first (fun s => np_eq s (np_max path_scores)) path_scores with
          | None => Fail IndexError
          | Some top_combination_index =>
              match nth_error peak_combinations top_combination_index with
              | None => Fail IndexError
              | Some top_combination_value =>
                  (* if no more non-nan values stop iterating *)
                  if forallb np_isnan top_combination_value then Break
                  else
                    match nth_error index_combinations top_combination_index with
                    | None => Fail IndexError
                    | Some top_path =>
                        Accept top_path
                               (np_delete_matching index_eqb index_combinations
                                                   top_path)
                               (np_delete_matching np_eq peak_combinations
                                                   top_combination_value)
                    end
              end
          end
      end
  end.

(** [for i in range(0, len(peak_combinations))]: [fuel] is what is left of
    the range. *)
Fixpoint align_loop (threshold : Z) (fuel : nat) (index_combinations : list ipath)
         (peak_combinations : list apath) (result_paths : list ipath)
  : result (list ipath) :=
  match fuel with
  | O => Ok result_paths
  | S fuel' =>
      match align_step threshold index_combinations peak_combinations with
      | Break => Ok result_paths
      | Fail e => Raise e
      | Accept top ic pc => align_loop threshold fuel' ic pc (result_paths ++ [top])
      end
  end.

Definition placeholder (c : string) (s : arow) : arow :=
  mkArow None (a_group s) c None None.

Definition add_missing_conditions (cfg : config) (skeleton_df peak_df : list arow)
  : list arow :=
  fold_left (fun peak_df c =>
               if negb (existsb (String.eqb c) (map a_condition peak_df))
               then peak_df ++ map (placeholder c) skeleton_df
               else peak_df)
            (conditions cfg) peak_df.

Definition index_lists_of (peak_df : list arow) : list ipath :=
  map (fun g => map a_index (snd g) ++ [None]) (groupby a_condition peak_df).

(** Everything [peak_alignment] builds before its loop: the table with the
    skeleton rows of the absent conditions, [index_combinations] and
    [peak_combinations]. *)
Definition search_space (cfg : config) (peak_df : list arow)
  : result (list arow * list ipath * list apath) :=
  let skeleton_df :=
    drop_duplicates (fun a b => list_eqb ostr_eqb (a_group a) (a_group b)) peak_df in
  (* ensures all conditions are matched *)
  let peak_df := add_missing_conditions cfg skeleton_df peak_df in
  let index_lists := index_lists_of peak_df in
  (* create all possible index combinations *)
  index_combinations <- meshgrid_rows index_lists ;;
  let peak_combinations :=
    fill_values float_of_index None index_combinations peak_df a_peak_apex in
  Ok (peak_df, index_combinations, peak_combinations).

Definition peak_alignment (cfg : config) (peak_df : list arow)
  : result (list ipath) :=
  s <- search_space cfg peak_df ;;
  align_loop (threshold cfg) (List.length (snd s)) (snd (fst s)) (snd s) [].

(** The two pools after [n] accepted paths, when the loop gets that far. *)
Fixpoint pools_after (threshold : Z) (n : nat) (index_combinations : list ipath)
         (peak_combinations : list apath) : option (list ipath * list apath) :=
  match n with
  | O => Some (index_combinations, peak_combinations)
  | S n' =>
      match align_step threshold index_combinations peak_combinations with
      | Accept _ ic pc => pools_after threshold n' ic pc
      | _ => None
      end
  end.

(** ** Organising the matches *)

(** A cell of an output column: filled from the row of that index, left as
    the index when no row has it, or missing. *)
Inductive slot := Missing | RawIndex (i : nat) | Filled (r : arow).

(** A row of [output_df]: the group columns, and one slot per condition
    from which every other column takes its cell. *)
Record track := mkTrack {
  t_group : list (option string);
  t_slots : list slot
}.

Definition condition_matching (cfg : config) (peak_df : list arow)
  : result (list track) :=
  index_alignment <- peak_alignment cfg peak_df ;;
  let filled := fill_values RawIndex Missing index_alignment peak_df Filled in
  match group_cols cfg, peak_df with
  | _ :: _, [] => Raise IndexError
  | _, [] => Ok (map (mkTrack []) filled)
  | _, r0 :: _ => Ok (map (mkTrack (a_group r0)) filled)
  end.

(** [df.reset_index(drop=True).reset_index()]. *)
Definition reset_index (cfg : config) (t : list erow) : list arow :=
  map (fun ie =>
         mkArow (Some (fst ie))
                (map (fun c => get_gcol c (e_peak (snd ie))) (group_cols cfg))
                (condition (e_peak (snd ie)))
                (peak_apex (e_peak (snd ie)))
                (Some (snd ie)))
      (combine (seq 0 (List.length t)) t).

Definition matching_i (cfg : config) (peak_table_i : list peak)
  : result (option (list track)) :=
  ptm_mod_table <- ptm_matching cfg peak_table_i ;;
  match ptm_mod_table with
  | None => Ok None
  | Some t => r <- condition_matching cfg (reset_index cfg t) ;; Ok (Some r)
  end.

(** [pd.concat] skips the [None] entries and refuses a list without any
    table. *)
Definition pd_concat {A} (objs : list (option (list A))) : result (list A) :=
  match flat_map (fun o => match o with Some t => [t] | None => [] end) objs with
  | [] => Raise ValueError
  | ts => Ok (List.concat ts)
  end.

(** The computing part of [main]. *)
Definition clustered_table (cfg : config) (match_df_list : list (list peak))
  : result (list track) :=
  mapped_result <- mapM (matching_i cfg) match_df_list ;;
  pd_concat mapped_result.

(** ** Properties of accepted paths *)

(** The present indices of slot [j], over a list of paths. *)
Definition column (j : nat) (paths : list ipath) : list nat :=
  flat_map (fun p => match nth_error p j with
                     | Some (Some i) => [i]
                     | _ => []
                     end) paths.

(** Two paths use the same peak in the same slot. *)
Definition shares_slot (a b : ipath) : Prop :=
  exists j i, nth_error a j = Some (Some i) /\ nth_error b j = Some (Some i).

Definition all_missing (p : ipath) : Prop := Forall (fun x => x = None) p.

(** The invariant of the loop: the accepted paths use every index at most
    once per slot, and no path left in the pool uses one of them. *)
Definition tracks_apart (ic acc : list ipath) : Prop :=
  (forall j, NoDup (column j acc))
  /\ (forall j i r, In i (column j acc) -> In r ic ->
                    nth_error r j <> Some (Some i)).


(** Every indexed row has an apex, rows of one index agree on it, and within
    a condition two rows with the same apex have the same index. *)
Definition distinct_apexes (peak_df : list arow) : Prop :=
  forall r1 r2 i1 i2,
    In r1 peak_df -> In r2 peak_df ->
    a_index r1 = Some i1 -> a_index r2 = Some i2 ->
    (i1 = i2 -> np_eq (a_peak_apex r1) (a_peak_apex r2) = true)
    /\ (a_condition r1 = a_condition r2 ->
        np_eq (a_peak_apex r1) (a_peak_apex r2) = true -> i1 = i2).

(** Slot [j] of every path of the pool holds indices of rows of the [j]-th
    condition. *)
Definition pool_of (df : list arow) (keys : list string) (ic : list ipath) : Prop :=
  forall r j i,
    In r ic -> nth_error r j = Some (Some i) ->
    exists k rho, nth_error keys j = Some k /\ In rho df
                  /\ a_index rho = Some i /\ a_condition rho = k.

(** The apex of an index entry, as [fill_values] computes it. *)
Definition apex_of (df : list arow) : option nat -> float :=
  fill_entry float_of_index None df a_peak_apex.

(** The removal rule the specification words: only the accepted path and its
    exact copies leave the pool. *)
Definition removed_exactly_equal (ic ic' : list ipath) (top : ipath) : Prop :=
  forall r, In r ic -> (~ In r ic' <-> r = top).

(** ** Counting accepted paths *)






(** What the loop needs of the index pool to run without an exception:
    aligned slots, no path without slots, and the all-missing path. *)
Definition runnable (df : list arow) (keys : list string) (ic : list ipath) : Prop :=
  pool_of df keys ic
  /\ (forall r, In r ic -> r <> [])
  /\ (exists r, In r ic /\ all_missing r).

(** ** Properties of the matcher's table *)

(** The cell of the column [name] of a row, when the row has that column. *)
Definition column_of (name : string) (row : erow) : option cell :=
  option_map snd (find (fun nc => String.eqb (fst nc) name) (e_extra row)).




(** ** Worked examples *)

(** A boolean form of [distinct_apexes]. *)
Definition distinct_apexes_b (peak_df : list arow) : bool :=
  forallb (fun r1 =>
    forallb (fun r2 =>
      match a_index r1, a_index r2 with
      | Some i1, Some i2 =>
          implb (Nat.eqb i1 i2) (np_eq (a_peak_apex r1) (a_peak_apex r2))
          && implb (String.eqb (a_condition r1) (a_condition r2)
                    && np_eq (a_peak_apex r1) (a_peak_apex r2))
                   (Nat.eqb i1 i2)
      | _, _ => true
      end) peak_df) peak_df.

Definition arow_at (i : nat) (c : string) (apex : Z) : arow :=
  mkArow (Some i) [Some "P1"; Some "P1"; Some "G1"] c (Some (inject_Z apex)) None.

(** Two conditions, threshold 5. *)
Definition cfg_two : config :=
  mkConfig [MatchId; ProteinId; Genes] ["A"; "B"] ["global"] 5.

(** Peaks at 10 and 50 in A, at 11 and 49 in B. *)
Definition ex_two_by_two : list arow :=
  [arow_at 0 "A" 10; arow_at 1 "A" 50; arow_at 2 "B" 11; arow_at 3 "B" 49].


(** Three conditions, threshold 1; the two peaks of B have the same apex,
    which is also the apex of a peak of C. *)
Definition cfg_three : config :=
  mkConfig [MatchId; ProteinId; Genes] ["A"; "B"; "C"] ["global"] 1.

Definition ex_equal_apexes : list arow :=
  [arow_at 0 "A" 10; arow_at 1 "A" 11; arow_at 2 "B" 20; arow_at 3 "B" 20;
   arow_at 4 "C" 20; arow_at 5 "C" 30].

Definition peak_at (ptm_name id : string) (apex left right : Z) : peak :=
  mkPeak (Some "P1_1") (Some "P1") (Some "G1") (Some "1") (Some "1") "A"
         ptm_name (Some id)
         (Some (inject_Z apex)) (Some (inject_Z left)) (Some (inject_Z right)).

(** One condition, two PTM channels besides the global one, cutoff 3. *)
Definition cfg_channels : config :=
  mkConfig [MatchId; ProteinId; Genes; Cluster] ["A"]
           ["global"; "acetyl"; "phospho"] 3.

(** A global peak, an acetyl peak and a phospho peak that both match it. *)
Definition ex_two_channels : list peak :=
  [peak_at "global" "g1" 20 18 22;
   peak_at "acetyl" "a1" 21 19 23;
   peak_at "phospho" "p1" 19 17 21].

(** One channel, cutoff 3. *)
Definition cfg_phospho : config :=
  mkConfig [MatchId; ProteinId; Genes; Cluster] ["A"] ["global"; "phospho"] 3.

(** Two global peaks with the same apex; the phospho peak overlaps the first
    only. *)
Definition ex_same_apex : list peak :=
  [peak_at "global" "g1" 20 18 25;
   peak_at "global" "g2" 20 19 21;
   peak_at "phospho" "p1" 22 22 26].

(** The scenario of the specification: apex difference equal to the cutoff. *)
Definition ex_cutoff_row : merged :=
  mkMerged (peak_at "global" "g1" 20 18 22) (Some (peak_at "phospho" "p1" 21 19 23)).

(** Apexes 3.3 and 0.3, as the binary64 nearest to them, in overlapping
    peaks: the exact difference is below 3, the binary64 difference is 3. *)
Definition ex_peak_33 : peak :=
  mkPeak (Some "P1_1") (Some "P1") (Some "G1") (Some "1") (Some "1") "A"
         "global" (Some "g1")
         (Some (3715469692580659 # 1125899906842624))
         (Some (inject_Z 0)) (Some (inject_Z 5)).

Definition ex_peak_03 : peak :=
  mkPeak (Some "P1_1") (Some "P1") (Some "G1") (Some "1") (Some "1") "A"
         "phospho" (Some "p1")
         (Some (5404319552844595 # 18014398509481984))
         (Some (inject_Z 0)) (Some (inject_Z 5)).

Definition ex_rounding_row : merged := mkMerged ex_peak_33 (Some ex_peak_03).


(** A group without global peaks. *)
Definition ex_no_global : list peak :=
  [peak_at "phospho" "p1" 22 22 26].

(** The two pools of [ex_two_by_two], before the loop and after its first
    iteration. *)
Definition ex_ic0 : list ipath :=
  [[Some 0; Some 2]; [Some 0; Some 3]; [Some 0; None];
   [Some 1; Some 2]; [Some 1; Some 3]; [Some 1; None];
   [None; Some 2]; [None; Some 3]; [None; None]]%nat.

Definition ex_pc0 : list apath :=
  fill_values float_of_index None ex_ic0 ex_two_by_two a_peak_apex.

Definition ex_ic1 : list ipath :=
  [[Some 1; Some 3]; [Some 1; None]; [None; Some 3]; [None; None]]%nat.

Definition ex_pc1 : list apath :=
  fill_values float_of_index None ex_ic1 ex_two_by_two a_peak_apex.

(** What [ptm_matching] returns on [ex_same_apex]. *)
Definition ex_same_apex_table : list erow :=
  map (fun g => mkErow g 1 [("phospho", IntCell 1); ("peak_id_ptm", StrCell "p1")])
      [peak_at "global" "g1" 20 18 25; peak_at "global" "g2" 20 19 21].




(** ** Sizes *)


(** ** Matches of a global peak *)

(** The flag of the pair ([g], [p]) under the configured cutoff. *)
Definition flag_of (cfg : config) (g p : peak) : Z :=
  ptm_eval_row (mkMerged g (Some p)) (b64_of_Z (threshold cfg)).


(** ** A protein without gene name *)

Definition cfg_no_cluster : config :=
  mkConfig [MatchId; ProteinId; Genes] ["A"] ["global"; "phospho"] 3.

(** A global peak whose [genes] cell is missing, and a phospho peak of the
    same protein. *)
Definition ex_no_genes : list peak :=
  [mkPeak (Some "P1_1") (Some "P1") None (Some "1") (Some "1") "A" "global"
          (Some "g1") (Some (inject_Z 20)) (Some (inject_Z 18)) (Some (inject_Z 22));
   mkPeak (Some "P1_1") (Some "P1") None (Some "1") (Some "1") "A" "phospho"
          (Some "p1") (Some (inject_Z 21)) (Some (inject_Z 19)) (Some (inject_Z 23))].

(** ** Two conditions *)

(** Two conditions, one channel, cutoff 3. *)
Definition cfg_ab : config :=
  mkConfig [MatchId; ProteinId; Genes; Cluster] ["A"; "B"] ["global"; "phospho"] 3.

Definition peak_in (c ptm_name id : string) (apex left right : Z) : peak :=
  mkPeak (Some "P1_1") (Some "P1") (Some "G1") (Some "1") (Some "1") c
         ptm_name (Some id)
         (Some (inject_Z apex)) (Some (inject_Z left)) (Some (inject_Z right)).

(** Two global peaks in A, one in B, and a phospho peak in A. *)
Definition ex_two_conditions : list peak :=
  [peak_in "A" "global" "g1" 20 18 22;
   peak_in "A" "global" "g2" 40 38 42;
   peak_in "B" "global" "g3" 21 19 23;
   peak_in "A" "phospho" "p1" 21 19 23].

(** ** [SQLitePeakMatchingManager.__init__]: the comparison groups *)

(** [list.remove(x)]: the first occurrence goes.  Both calls of
    [__init__] remove a column that the list holds. *)
Fixpoint py_remove (c : gcol) (l : list gcol) : list gcol :=
  match l with
  | [] => []
  | x :: rest => if gcol_eqb x c then rest else x :: py_remove c rest
  end.

Definition set_match_id (p : peak) (m : option string) : peak :=
  {| match_id := m; protein_id := protein_id p; genes := genes p;
     cluster := cluster p; replicate := replicate p; condition := condition p;
     ptm := ptm p; peak_id := peak_id p; peak_apex := peak_apex p;
     peak_left := peak_left p; peak_right := peak_right p |}.

(** What [main] reads from the manager. *)
Record manager := mkManager {
  m_peak_table : list peak;
  m_conditions : list string;
  m_ptms : list string;
  m_match_df_list : list (list peak);
  m_group_cols : list gcol
}.

(** [peak_table[combine_cols].astype(str).agg('_'.join, axis=1)] on one row. *)
Definition joined_id (combine_cols : list gcol) (p : peak) : string :=
  String.concat "_" (map (fun c => py_str (get_gcol c p)) combine_cols).

(** [__init__] on the rows read from the peak table (a table with at least
    one row); the [match_id] the rows come with is overwritten. *)
Definition manager_init (peak_table : list peak) : manager :=
  let combine_cols := [ProteinId; Cluster; Replicate] in
  let group_cols := [MatchId; ProteinId; Genes; Cluster; Replicate] in
  let conditions := drop_duplicates String.eqb (map condition peak_table) in
  let ptms := drop_duplicates String.eqb (map ptm peak_table) in
  let replicates := drop_duplicates ostr_eqb (map replicate peak_table) in
  (* split peak table into comparison groups *)
  let single := (List.length replicates =? 1)%nat in
  let combine_cols :=
    if single then py_remove Replicate combine_cols else combine_cols in
  let group_cols :=
    if single then py_remove Replicate group_cols else group_cols in
  let zero := existsb (ostr_eqb (Some "0")) (map cluster peak_table) in
  let combine_cols :=
    if zero then py_remove Cluster combine_cols else combine_cols in
  let group_cols :=
    if zero then py_remove Cluster group_cols else group_cols in
  let peak_table :=
    map (fun p => set_match_id p (Some (joined_id combine_cols p))) peak_table in
  let match_df_list :=
    map snd (groupby (fun p => py_str (match_id p)) peak_table) in
  mkManager peak_table conditions ptms match_df_list group_cols.

(** The globals [main] sets from the manager and the cutoff. *)
Definition globals_of (m : manager) (cutoff : Z) : config :=
  mkConfig (m_group_cols m) (m_conditions m) (m_ptms m) cutoff.

(** Two replicates of one protein, and a second protein. *)
Definition ex_peak_table : list peak :=
  [mkPeak None (Some "P1") (Some "G1") (Some "1") (Some "1") "A" "global"
          (Some "g1") (Some (inject_Z 20)) (Some (inject_Z 18)) (Some (inject_Z 22));
   mkPeak None (Some "P2") (Some "G2") (Some "1") (Some "1") "A" "global"
          (Some "g2") (Some (inject_Z 30)) (Some (inject_Z 28)) (Some (inject_Z 32));
   mkPeak None (Some "P1") (Some "G1") (Some "1") (Some "2") "A" "global"
          (Some "g3") (Some (inject_Z 21)) (Some (inject_Z 19)) (Some (inject_Z 23));
   mkPeak None (Some "P1") (Some "G1") (Some "1") (Some "1") "B" "phospho"
          (Some "p1") (Some (inject_Z 20)) (Some (inject_Z 18)) (Some (inject_Z 22))].

(** [main], from the rows of the peak table to the concatenated table. *)
Definition main_table (peak_table : list peak) (cutoff : Z) : result (list track) :=
  let manager := manager_init peak_table in
  clustered_table (globals_of manager cutoff) (m_match_df_list manager).

(** * Proofs *)

(** ** The match rule of [ptm_eval] *)

Lemma Qltb_lt (a b : Q) : Qltb a b = true <-> (a < b)%Q.
Proof.
  unfold Qltb. rewrite negb_true_iff.
  split; intro H.
  - apply Qnot_le_lt. intro L. apply Qle_bool_iff in L. congruence.
  - destruct (Qle_bool b a) eqn:E; trivial.
    apply Qle_bool_iff in E. exfalso. exact (Qlt_not_le _ _ H E).
Qed.

Lemma np_lt_spec (a b : float) :
  np_lt a b = true <-> exists x y, a = Some x /\ b = Some y /\ (x < y)%Q.
Proof.
  destruct a as [x|], b as [y|]; simpl; split; intro H;
    try discriminate; try (destruct H as (? & ? & ? & ? & _); discriminate).
  - exists x, y. repeat split. now apply Qltb_lt.
  - destruct H as (x' & y' & Hx & Hy & L). inversion Hx; inversion Hy; subst.
    now apply Qltb_lt.
Qed.

Lemma overlap_condition_spec (r : merged) :
  np_lt (peak_right (m_global r)) (peak_left_ptm r)
  || np_gt (peak_left (m_global r)) (peak_right_ptm r) = true
  <-> intervals_disjoint r.
Proof.
  unfold intervals_disjoint, np_gt. rewrite orb_true_iff, !np_lt_spec.
  split; intros [H|H].
  - left. exact H.
  - right. destruct H as (x & y & Hx & Hy & L). now exists y, x.
  - left. exact H.
  - right. destruct H as (x & y & Hx & Hy & L). now exists y, x.
Qed.

(** For well-formed bounds the test of [ptm_eval] is the intersection of the
    two closed intervals: a single shared boundary point is an overlap. *)
Lemma closed_intervals_meet (gl gr pl pr : Q) :
  (gl <= gr)%Q -> (pl <= pr)%Q ->
  (~ ((gr < pl)%Q \/ (pr < gl)%Q)
   <-> exists x, (gl <= x <= gr)%Q /\ (pl <= x <= pr)%Q).
Proof.
  intros Hg Hp. split.
  - intro N.
    assert (L1 : (pl <= gr)%Q) by (apply Qnot_lt_le; intro; apply N; now left).
    assert (L2 : (gl <= pr)%Q) by (apply Qnot_lt_le; intro; apply N; now right).
    destruct (Qlt_le_dec gl pl) as [L|L].
    + exists pl. repeat split; try assumption; try apply Qle_refl.
      now apply Qlt_le_weak.
    + exists gl. repeat split; try assumption; apply Qle_refl.
  - intros (x & [A B] & [C D]) [L|L].
    + apply (Qlt_irrefl x). eapply Qle_lt_trans; [exact B|].
      eapply Qlt_le_trans; [exact L| exact C].
    + apply (Qlt_irrefl x). eapply Qle_lt_trans; [exact D|].
      eapply Qlt_le_trans; [exact L| exact A].
Qed.

Lemma ptm_eval_row_one (r : merged) (cutoff : spec_float) :
  ptm_eval_row r cutoff = 1%Z <-> apex_within64 r cutoff /\ ~ intervals_disjoint r.
Proof.
  unfold ptm_eval_row, apex_within64, apex_diff64.
  rewrite <- (overlap_condition_spec r).
  destruct (SFltb _ cutoff);
    destruct (np_lt (peak_right (m_global r)) (peak_left_ptm r)
              || np_gt (peak_left (m_global r)) (peak_right_ptm r));
    simpl; intuition congruence.
Qed.

Lemma ptm_eval_row_flag (r : merged) (cutoff : spec_float) :
  ptm_eval_row r cutoff = 1%Z \/ ptm_eval_row r cutoff = 0%Z.
Proof.
  unfold ptm_eval_row.
  match goal with |- context [if ?c then _ else _] => destruct c end; auto.
Qed.

(** C1, as worded, fails: at the apexes 3.3 and 0.3 with the cutoff 3 the
    difference is below 3, the peaks overlap, and the flag is 0, because the
    binary64 difference is 3. *)
Lemma rounding_reaches_the_cutoff :
  ~ (forall (r : merged) (cutoff : Z),
        ptm_eval_row r (b64_of_Z cutoff) = 1%Z
        <-> apex_within r (inject_Z cutoff) /\ ~ intervals_disjoint r).
Proof.
  intro H. specialize (H ex_rounding_row 3%Z).
  assert (F : ptm_eval_row ex_rounding_row (b64_of_Z 3) = 0%Z)
    by (vm_compute; reflexivity).
  assert (K : ptm_eval_row ex_rounding_row (b64_of_Z 3) = 1%Z).
  { apply H. split.
    - exists (3715469692580659 # 1125899906842624),
             (5404319552844595 # 18014398509481984).
      split; [reflexivity|]. split; [reflexivity|]. vm_compute. reflexivity.
    - rewrite <- overlap_condition_spec. vm_compute. discriminate. }
  rewrite F in K. discriminate.
Qed.

(** C1 (amended).  The flag of [ptm_eval] on a joined row is 1 exactly when
    the apex difference, as binary64 computes it, is strictly below the
    cutoff and the two intervals are not disjoint (a strict test, so
    touching bounds overlap); it is 0 or 1; and a computed apex difference
    equal to the cutoff gives 0. *)
Theorem ptm_eval_match_rule (r : merged) (cutoff : spec_float) :
  (ptm_eval_row r cutoff = 1%Z
   <-> apex_within64 r cutoff /\ ~ intervals_disjoint r)
  /\ (ptm_eval_row r cutoff = 1%Z \/ ptm_eval_row r cutoff = 0%Z)
  /\ (SFeqb (apex_diff64 r) cutoff = true -> ptm_eval_row r cutoff = 0%Z).
Proof.
  split; [apply ptm_eval_row_one|]. split; [apply ptm_eval_row_flag|].
  intro E. unfold ptm_eval_row. fold (apex_diff64 r).
  assert (L : SFltb (apex_diff64 r) cutoff = false).
  { unfold SFltb. unfold SFeqb in E.
    destruct (SFcompare (apex_diff64 r) cutoff) as [[| |]|]; trivial; discriminate. }
  rewrite L. reflexivity.
Qed.

Lemma ptm_eval_match_rule_witness :
  SFeqb (apex_diff64 ex_cutoff_row) (b64_of_Z 1) = true
  /\ ptm_eval_row ex_cutoff_row (b64_of_Z 1) = 0%Z.
Proof.
  assert (E : SFeqb (apex_diff64 ex_cutoff_row) (b64_of_Z 1) = true)
    by (vm_compute; reflexivity).
  split; [exact E|].
  exact (proj2 (proj2 (ptm_eval_match_rule ex_cutoff_row (b64_of_Z 1))) E).
Defined.

(** ** The greedy loop: what one iteration does *)

Lemma row_matches_spec {A} (eqb : A -> A -> bool) (top r : list A) :
  row_matches eqb top r = true
  <-> exists j a b, nth_error top j = Some a /\ nth_error r j = Some b
                    /\ eqb b a = true.
Proof.
  unfold row_matches. revert r.
  induction top as [|t top IH]; intros r.
  - simpl. split; [discriminate|]. intros (j & a & b & H & _).
    destruct j; discriminate.
  - destruct r as [|x r].
    + simpl. split; [discriminate|]. intros (j & a & b & _ & H & _).
      destruct j; discriminate.
    + simpl. rewrite orb_true_iff, IH. split.
      * intros [H|(j & a & b & H1 & H2 & H3)].
        -- now exists 0%nat, t, x.
        -- now exists (S j), a, b.
      * intros ([|j] & a & b & H1 & H2 & H3); simpl in H1, H2.
        -- left. congruence.
        -- right. now exists j, a, b.
Qed.

Lemma index_matches_spec (top r : ipath) :
  row_matches index_eqb top r = true <-> shares_slot top r.
Proof.
  rewrite row_matches_spec. unfold shares_slot. split.
  - intros (j & a & b & H1 & H2 & E).
    destruct a as [x|], b as [y|]; simpl in E; try discriminate;
      try (destruct y; discriminate).
    apply Nat.eqb_eq in E. subst y. now exists j, x.
  - intros (j & i & H1 & H2). exists j, (Some i), (Some i).
    repeat split; trivial. simpl. apply Nat.eqb_refl.
Qed.

Lemma shares_slot_sym (a b : ipath) : shares_slot a b -> shares_slot b a.
Proof. intros (j & i & H1 & H2). now exists j, i. Qed.

Lemma align_step_accept (t : Z) (ic : list ipath) (pc : list apath)
      (top : ipath) (ic' : list ipath) (pc' : list apath) :
  align_step t ic pc = Accept top ic' pc' ->
  exists k top_value,
    (exists path_scores,
        mapM (path_score t) pc = Ok path_scores
        /\ where_first (fun s => np_eq s (np_max path_scores)) path_scores
           = Some k)
    /\ nth_error pc k = Some top_value
    /\ forallb np_isnan top_value = false
    /\ nth_error ic k = Some top
    /\ ic' = np_delete_matching index_eqb ic top
    /\ pc' = np_delete_matching np_eq pc top_value.
Proof.
  unfold align_step. destruct pc as [|p pc0]; [discriminate|].
  set (pc := p :: pc0).
  destruct (mapM (path_score t) pc) as [path_scores|e] eqn:Sc; [|discriminate].
  destruct (where_first _ _) as [k|] eqn:W; [|discriminate].
  destruct (nth_error pc k) as [tv|] eqn:N; [|discriminate].
  destruct (forallb np_isnan tv) eqn:F; [discriminate|].
  destruct (nth_error ic k) as [tp|] eqn:M; [|discriminate].
  intro H. inversion H; subst. exists k, tv. repeat split; trivial.
  now exists path_scores.
Qed.

Lemma where_first_spec {A} (mask : A -> bool) (l : list A) (k : nat) :
  where_first mask l = Some k ->
  (exists x, nth_error l k = Some x /\ mask x = true)
  /\ forall k' y, (k' < k)%nat -> nth_error l k' = Some y -> mask y = false.
Proof.
  revert k. induction l as [|x l IH]; intros k H; simpl in H; [discriminate|].
  destruct (mask x) eqn:E.
  - inversion H; subst. split; [now exists x|]. intros k' y Hk. lia.
  - destruct (where_first mask l) as [k0|]; simpl in H; [|discriminate].
    inversion H; subst. destruct (IH k0 eq_refl) as [I1 I2]. split; [exact I1|].
    intros [|k'] y Hk Hy; simpl in Hy.
    + inversion Hy; subst. exact E.
    + apply (I2 k' y); [lia | exact Hy].
Qed.

(** The path selected by an iteration is the first whose score equals the
    maximum; the loop stops at once when all its apexes are missing. *)
Lemma align_step_break (t : Z) (ic : list ipath) (pc : list apath) :
  align_step t ic pc = Break ->
  exists k top_value,
    (exists path_scores,
        mapM (path_score t) pc = Ok path_scores
        /\ where_first (fun s => np_eq s (np_max path_scores)) path_scores
           = Some k)
    /\ nth_error pc k = Some top_value
    /\ forallb np_isnan top_value = true.
Proof.
  unfold align_step. destruct pc as [|p pc0]; [discriminate|].
  set (pc := p :: pc0).
  destruct (mapM (path_score t) pc) as [path_scores|e] eqn:Sc; [|discriminate].
  destruct (where_first _ _) as [k|] eqn:W; [|discriminate].
  destruct (nth_error pc k) as [tv|] eqn:N; [|discriminate].
  destruct (forallb np_isnan tv) eqn:F.
  - intros _. exists k, tv. repeat split; trivial. now exists path_scores.
  - destruct (nth_error ic k); discriminate.
Qed.

Lemma align_loop_break (t : Z) (fuel : nat) (ic : list ipath) (pc : list apath)
      (acc : list ipath) :
  align_step t ic pc = Break -> align_loop t (S fuel) ic pc acc = Ok acc.
Proof. intro H. simpl. now rewrite H. Qed.

(** ** No peak in two tracks *)

Lemma column_app (j : nat) (a b : list ipath) :
  column j (a ++ b) = column j a ++ column j b.
Proof. unfold column. apply flat_map_app. Qed.

Lemma column_In (j i : nat) (paths : list ipath) :
  In i (column j paths) <-> exists p, In p paths /\ nth_error p j = Some (Some i).
Proof.
  unfold column. rewrite in_flat_map. split.
  - intros (p & Hp & Hi). exists p. split; trivial.
    destruct (nth_error p j) as [[x|]|]; simpl in Hi; try tauto.
    destruct Hi as [->|[]]. reflexivity.
  - intros (p & Hp & Hi). exists p. split; trivial. rewrite Hi. now left.
Qed.

Lemma NoDup_snoc {A} (l : list A) (x : A) :
  NoDup l -> ~ In x l -> NoDup (l ++ [x]).
Proof.
  induction 1 as [|y l Hy ND IH]; intro N; simpl.
  - constructor; [tauto | constructor].
  - constructor.
    + rewrite in_app_iff. simpl. intros [H|[H|[]]]; [tauto|].
      subst. apply N. now left.
    + apply IH. intro H. apply N. now right.
Qed.

Lemma tracks_apart_step (t : Z) (ic : list ipath) (pc : list apath)
      (acc : list ipath) (top : ipath) (ic' : list ipath) (pc' : list apath) :
  tracks_apart ic acc ->
  align_step t ic pc = Accept top ic' pc' ->
  tracks_apart ic' (acc ++ [top]).
Proof.
  intros [ND AP] H.
  apply align_step_accept in H.
  destruct H as (k & tv & _ & _ & _ & Htop & -> & _).
  apply nth_error_In in Htop.
  assert (C : forall j, column j [top]
                        = match nth_error top j with
                          | Some (Some i) => [i] | _ => [] end).
  { intro j. unfold column. simpl. apply app_nil_r. }
  split.
  - intro j. rewrite column_app, C.
    destruct (nth_error top j) as [[i|]|] eqn:E;
      try (rewrite app_nil_r; apply ND).
    apply NoDup_snoc; [apply ND|].
    intro Hin. exact (AP j i top Hin Htop E).
  - intros j i r Hi Hr.
    unfold np_delete_matching in Hr. apply filter_In in Hr.
    destruct Hr as [Hr Hm]. apply negb_true_iff in Hm.
    rewrite column_app, in_app_iff, C in Hi. destruct Hi as [Hi|Hi].
    + now apply AP.
    + destruct (nth_error top j) as [[i'|]|] eqn:E; simpl in Hi; try tauto.
      destruct Hi as [->|[]]. intro Hr'.
      assert (S : shares_slot top r) by now exists j, i.
      apply index_matches_spec in S. congruence.
Qed.

Lemma align_loop_tracks_apart (t : Z) (fuel : nat) :
  forall ic pc acc res,
    tracks_apart ic acc ->
    align_loop t fuel ic pc acc = Ok res ->
    forall j, NoDup (column j res).
Proof.
  induction fuel as [|fuel IH]; intros ic pc acc res Inv H; simpl in H.
  - inversion H; subst. apply Inv.
  - destruct (align_step t ic pc) as [|top ic' pc'|e] eqn:S.
    + inversion H; subst. apply Inv.
    + eapply IH; [|exact H]. eapply tracks_apart_step; eauto.
    + discriminate.
Qed.

(** C4.  Whatever table it is given, the paths [peak_alignment] returns use
    every row index at most once in each condition slot. *)
Theorem peak_alignment_tracks_disjoint (cfg : config) (peak_df : list arow)
        (paths : list ipath) :
  peak_alignment cfg peak_df = Ok paths ->
  forall j, NoDup (column j paths).
Proof.
  unfold peak_alignment. intro H.
  destruct (search_space cfg peak_df) as [s|e]; simpl in H; [|discriminate].
  eapply align_loop_tracks_apart; [|exact H].
  split.
  - intro j. constructor.
  - intros j i r [].
Qed.

(** ** The search space *)

Lemma meshgrid_fold_In {A} (rest pre : list (list A)) (pool : list (list A)) :
  (forall r, In r pool -> Forall2 (fun x l => In x l) r pre) ->
  forall r,
    In r (fold_left
            (fun pool l => flat_map (fun x => map (fun r => r ++ [x]) pool) l)
            rest pool) ->
    Forall2 (fun x l => In x l) r (pre ++ rest).
Proof.
  revert pre pool. induction rest as [|l rest IH]; intros pre pool H r Hr.
  - simpl in Hr. rewrite app_nil_r. now apply H.
  - simpl in Hr.
    replace (pre ++ l :: rest) with ((pre ++ [l]) ++ rest)
      by (rewrite <- app_assoc; reflexivity).
    eapply IH; [|exact Hr].
    intros r' Hr'. apply in_flat_map in Hr'. destruct Hr' as (x & Hx & Hr').
    apply in_map_iff in Hr'. destruct Hr' as (r0 & <- & Hr0).
    apply Forall2_app; [now apply H|]. constructor; [exact Hx | constructor].
Qed.

Lemma meshgrid_rows_In {A} (lists : list (list A)) (pool : list (list A)) :
  meshgrid_rows lists = Ok pool ->
  forall r, In r pool -> Forall2 (fun x l => In x l) r lists.
Proof.
  unfold meshgrid_rows. destruct lists as [|l1 [|l2 rest]]; intro H.
  - discriminate.
  - inversion H; subst. intros r Hr. apply in_map_iff in Hr.
    destruct Hr as (x & <- & Hx). constructor; [exact Hx | constructor].
  - inversion H; subst. intros r Hr.
    change (l1 :: l2 :: rest) with ([l1; l2] ++ rest).
    eapply meshgrid_fold_In; [|exact Hr].
    intros r' Hr'. apply in_flat_map in Hr'. destruct Hr' as (x1 & H1 & Hr').
    apply in_map_iff in Hr'. destruct Hr' as (x2 & <- & H2).
    repeat constructor; assumption.
Qed.

Lemma Forall2_nth_error_l {A B} (R : A -> B -> Prop) (l : list A) (l' : list B) :
  Forall2 R l l' ->
  forall j x, nth_error l j = Some x ->
              exists y, nth_error l' j = Some y /\ R x y.
Proof.
  induction 1 as [|a b l l' Hab _ IH]; intros j x Hj.
  - destruct j; discriminate.
  - destruct j as [|j]; simpl in Hj.
    + inversion Hj; subst. now exists b.
    + now apply IH.
Qed.

Lemma index_lists_of_keys (df : list arow) :
  index_lists_of df
  = map (fun k => map a_index (filter (fun r => String.eqb (a_condition r) k) df)
                  ++ [None])
        (sorted_keys (map a_condition df)).
Proof. unfold index_lists_of, groupby. rewrite map_map. reflexivity. Qed.

Lemma search_space_pool (cfg : config) (peak_df df : list arow)
      (ic : list ipath) (pc : list apath) :
  search_space cfg peak_df = Ok (df, ic, pc) ->
  pool_of df (sorted_keys (map a_condition df)) ic
  /\ pc = fill_values float_of_index None ic df a_peak_apex
  /\ meshgrid_rows (index_lists_of df) = Ok ic
  /\ df = add_missing_conditions cfg
            (drop_duplicates (fun a b => list_eqb ostr_eqb (a_group a) (a_group b))
                             peak_df)
            peak_df.
Proof.
  unfold search_space.
  set (df' := add_missing_conditions cfg _ peak_df).
  destruct (meshgrid_rows (index_lists_of df')) as [pool|e] eqn:M; simpl;
    [|discriminate].
  intro H. inversion H; subst. clear H.
  repeat split; trivial.
  intros r j i Hr Hj.
  pose proof (meshgrid_rows_In _ _ M r Hr) as F.
  destruct (Forall2_nth_error_l _ _ _ F j _ Hj) as (l & Hl & Hin).
  rewrite index_lists_of_keys in Hl.
  rewrite nth_error_map in Hl.
  destruct (nth_error (sorted_keys (map a_condition df')) j) as [k|] eqn:K;
    simpl in Hl; [|discriminate].
  inversion Hl; subst l. clear Hl.
  apply in_app_iff in Hin. destruct Hin as [Hin|[Hin|[]]]; [|discriminate].
  apply in_map_iff in Hin. destruct Hin as (rho & Hi & Hrho).
  apply filter_In in Hrho. destruct Hrho as [Hrho Hk].
  apply String.eqb_eq in Hk. now exists k, rho.
Qed.

(** ** The two pools under distinct apexes *)

Lemma np_eq_sym (a b : float) : np_eq a b = np_eq b a.
Proof. destruct a, b; simpl; trivial. apply Qeq_bool_comm. Qed.

Lemma np_eq_trans (a b c : float) :
  np_eq a b = true -> np_eq b c = true -> np_eq a c = true.
Proof.
  destruct a, b, c; simpl; try discriminate. apply Qeq_bool_trans.
Qed.

Lemma add_missing_conditions_rows (cfg : config) (skeleton_df peak_df : list arow) :
  incl peak_df (add_missing_conditions cfg skeleton_df peak_df)
  /\ forall r, In r (add_missing_conditions cfg skeleton_df peak_df) ->
               In r peak_df \/ a_index r = None.
Proof.
  unfold add_missing_conditions.
  generalize (conditions cfg). intro cs. revert peak_df.
  induction cs as [|c cs IH]; intro df; simpl.
  - split; [apply incl_refl | auto].
  - set (df1 := if negb (existsb (String.eqb c) (map a_condition df))
                then df ++ map (placeholder c) skeleton_df else df).
    assert (H1 : incl df df1 /\ forall r, In r df1 -> In r df \/ a_index r = None).
    { subst df1. destruct (negb _).
      - split; [apply incl_appl, incl_refl|].
        intros r Hr. apply in_app_iff in Hr. destruct Hr as [Hr|Hr]; [now left|].
        apply in_map_iff in Hr. destruct Hr as (s & <- & _). now right.
      - split; [apply incl_refl | auto]. }
    destruct (IH df1) as [I1 I2]. destruct H1 as [J1 J2]. split.
    + eapply incl_tran; eassumption.
    + intros r Hr. destruct (I2 r Hr) as [H|H]; [|now right]. now apply J2.
Qed.

Lemma distinct_apexes_add_missing (cfg : config) (skeleton_df peak_df : list arow) :
  distinct_apexes peak_df ->
  distinct_apexes (add_missing_conditions cfg skeleton_df peak_df).
Proof.
  intros H r1 r2 i1 i2 H1 H2 E1 E2.
  destruct (add_missing_conditions_rows cfg skeleton_df peak_df) as [_ R].
  destruct (R r1 H1) as [K1|K1]; [|congruence].
  destruct (R r2 H2) as [K2|K2]; [|congruence].
  now apply H.
Qed.

Lemma apex_of_row (df : list arow) (rho : arow) (i : nat) :
  In rho df -> a_index rho = Some i ->
  exists rho', In rho' df /\ a_index rho' = Some i
               /\ apex_of df (Some i) = a_peak_apex rho'.
Proof.
  intros Hin Hi. unfold apex_of, fill_entry.
  destruct (filter (fun r => index_eqb (a_index r) (Some i)) df) as [|rho' l] eqn:F.
  - exfalso.
    assert (K : In rho (filter (fun r => index_eqb (a_index r) (Some i)) df)).
    { apply filter_In. split; trivial. rewrite Hi. simpl. apply Nat.eqb_refl. }
    rewrite F in K. exact K.
  - assert (K : In rho' (filter (fun r => index_eqb (a_index r) (Some i)) df))
      by (rewrite F; now left).
    apply filter_In in K. destruct K as [K1 K2].
    exists rho'. repeat split; trivial.
    destruct (a_index rho') as [x|]; simpl in K2; [|discriminate].
    apply Nat.eqb_eq in K2. now subst.
Qed.

Lemma fill_values_apex (ic : list ipath) (df : list arow) :
  fill_values float_of_index None ic df a_peak_apex = map (map (apex_of df)) ic.
Proof. reflexivity. Qed.

Lemma apex_of_None (df : list arow) : apex_of df None = None.
Proof. reflexivity. Qed.

Lemma entry_match_sync (df : list arow) (keys : list string) (ic : list ipath)
      (r1 r2 : ipath) (j : nat) (x y : option nat) :
  distinct_apexes df -> pool_of df keys ic ->
  In r1 ic -> In r2 ic ->
  nth_error r1 j = Some x -> nth_error r2 j = Some y ->
  np_eq (apex_of df y) (apex_of df x) = index_eqb y x.
Proof.
  intros D P H1 H2 E1 E2.
  destruct x as [i1|]; [|destruct y; simpl; [|reflexivity];
                         rewrite np_eq_sym; reflexivity].
  destruct y as [i2|]; [|reflexivity].
  destruct (P r1 j i1 H1 E1) as (k1 & rho1 & K1 & In1 & Ix1 & C1).
  destruct (P r2 j i2 H2 E2) as (k2 & rho2 & K2 & In2 & Ix2 & C2).
  assert (k2 = k1) by congruence. subst k2.
  destruct (apex_of_row df rho1 i1 In1 Ix1) as (q1 & Q1 & J1 & ->).
  destruct (apex_of_row df rho2 i2 In2 Ix2) as (q2 & Q2 & J2 & ->).
  simpl index_eqb.
  destruct (Nat.eqb i2 i1) eqn:E.
  - apply Nat.eqb_eq in E. now apply (D q2 q1 i2 i1).
  - apply Nat.eqb_neq in E.
    destruct (np_eq (a_peak_apex q2) (a_peak_apex q1)) eqn:N; trivial.
    exfalso. apply E.
    apply (D rho2 rho1 i2 i1 In2 In1 Ix2 Ix1); [congruence|].
    apply np_eq_trans with (a_peak_apex q2).
    + now apply (D rho2 q2 i2 i2).
    + apply np_eq_trans with (a_peak_apex q1); trivial.
      now apply (D q1 rho1 i1 i1).
Qed.

Lemma row_match_sync (df : list arow) (keys : list string) (ic : list ipath)
      (top r : ipath) :
  distinct_apexes df -> pool_of df keys ic ->
  In top ic -> In r ic ->
  row_matches np_eq (map (apex_of df) top) (map (apex_of df) r)
  = row_matches index_eqb top r.
Proof.
  intros D P Ht Hr. apply eq_true_iff_eq. rewrite !row_matches_spec. split.
  - intros (j & a & b & Ha & Hb & E).
    rewrite nth_error_map in Ha, Hb.
    destruct (nth_error top j) as [x|] eqn:Ex; [|discriminate].
    destruct (nth_error r j) as [y|] eqn:Ey; [|discriminate].
    simpl in Ha, Hb. inversion Ha; inversion Hb; subst.
    exists j, x, y. repeat split; trivial.
    now rewrite <- (entry_match_sync df keys ic top r j x y).
  - intros (j & x & y & Ex & Ey & E).
    exists j, (apex_of df x), (apex_of df y).
    rewrite !nth_error_map, Ex, Ey. repeat split; trivial.
    now rewrite (entry_match_sync df keys ic top r j x y).
Qed.

Lemma delete_sync (df : list arow) (keys : list string) (ic0 ic : list ipath)
      (top : ipath) :
  distinct_apexes df -> pool_of df keys ic0 -> incl ic ic0 -> In top ic0 ->
  np_delete_matching np_eq (fill_values float_of_index None ic df a_peak_apex)
                     (map (apex_of df) top)
  = fill_values float_of_index None
                (np_delete_matching index_eqb ic top) df a_peak_apex.
Proof.
  intros D P I Ht. rewrite !fill_values_apex. unfold np_delete_matching.
  induction ic as [|r ic IH]; simpl; trivial.
  assert (Hr : In r ic0) by (apply I; now left).
  rewrite (row_match_sync df keys ic0 top r D P Ht Hr).
  rewrite IH by (intros z Hz; apply I; now right).
  destruct (row_matches index_eqb top r); reflexivity.
Qed.

Lemma not_all_nan_present (df : list arow) (p : ipath) :
  forallb np_isnan (map (apex_of df) p) = false ->
  exists j i, nth_error p j = Some (Some i).
Proof.
  induction p as [|x p IH]; simpl; [discriminate|].
  destruct x as [i|].
  - intros _. now exists 0%nat, i.
  - rewrite apex_of_None. simpl. intro H.
    destruct (IH H) as (j & i & E). now exists (S j), i.
Qed.

Lemma pool_of_incl (df : list arow) (keys : list string) (ic0 ic : list ipath) :
  pool_of df keys ic0 -> incl ic ic0 -> pool_of df keys ic.
Proof. intros P I r j i Hr. apply P. now apply I. Qed.

(** What an accepting iteration does to aligned pools. *)
Lemma align_step_sync (t : Z) (df : list arow) (keys : list string)
      (ic : list ipath) (top : ipath) (ic' : list ipath) (pc' : list apath) :
  distinct_apexes df -> pool_of df keys ic ->
  align_step t ic (fill_values float_of_index None ic df a_peak_apex)
  = Accept top ic' pc' ->
  (forall r, In r ic' <-> In r ic /\ ~ shares_slot top r)
  /\ In top ic /\ ~ In top ic'
  /\ pc' = fill_values float_of_index None ic' df a_peak_apex.
Proof.
  intros D P H. apply align_step_accept in H.
  destruct H as (k & tv & _ & Htv & NN & Htop & -> & ->).
  rewrite fill_values_apex, nth_error_map in Htv.
  unfold ipath in Htv, Htop. rewrite Htop in Htv. simpl in Htv. inversion Htv; subst tv.
  pose proof (nth_error_In _ _ Htop) as Hin.
  assert (R : forall r, In r (np_delete_matching index_eqb ic top)
                        <-> In r ic /\ ~ shares_slot top r).
  { intro r. unfold np_delete_matching. rewrite filter_In, negb_true_iff.
    rewrite <- index_matches_spec.
    destruct (row_matches index_eqb top r); intuition congruence. }
  split; [exact R|]. split; [exact Hin|]. split.
  - intro K. apply R in K. destruct K as [_ K]. apply K.
    destruct (not_all_nan_present df top NN) as (j & i & E). now exists j, i.
  - apply (delete_sync df keys ic ic top D P (incl_refl _) Hin).
Qed.

Lemma pools_after_sync (t : Z) (df : list arow) (keys : list string) (n : nat) :
  forall ic0 ic pc,
    distinct_apexes df -> pool_of df keys ic0 ->
    pools_after t n ic0 (fill_values float_of_index None ic0 df a_peak_apex)
    = Some (ic, pc) ->
    pool_of df keys ic /\ pc = fill_values float_of_index None ic df a_peak_apex.
Proof.
  induction n as [|n IH]; intros ic0 ic pc D P H; simpl in H.
  - inversion H; subst. now split.
  - destruct (align_step t ic0 _) as [|top ic1 pc1|e] eqn:S; try discriminate.
    destruct (align_step_sync t df keys ic0 top ic1 pc1 D P S) as (R & _ & _ & ->).
    apply (IH ic1 ic pc D); [|exact H].
    apply (pool_of_incl df keys ic0); trivial.
    intros r Hr. now apply R.
Qed.

(** An accepting iteration prunes the index pool by shared slots, whatever
    the apex pool holds. *)
Lemma align_step_removes (t : Z) (ic : list ipath) (pc : list apath)
      (top : ipath) (ic' : list ipath) (pc' : list apath) :
  align_step t ic pc = Accept top ic' pc' ->
  In top ic /\ forall r, In r ic' <-> In r ic /\ ~ shares_slot top r.
Proof.
  intro H. apply align_step_accept in H.
  destruct H as (k & tv & _ & _ & _ & Htop & -> & _).
  split; [now apply nth_error_In in Htop|].
  intro r. unfold np_delete_matching. rewrite filter_In, negb_true_iff.
  rewrite <- index_matches_spec.
  destruct (row_matches index_eqb top r); intuition congruence.
Qed.

(** C3 (amended).  An accepting iteration removes from the index pool exactly
    the paths that share a present index with the accepted path in some slot;
    and when every peak has an apex and the peaks of one condition have
    pairwise different apexes, the accepted path is one of them and the apex
    pool is, after every iteration, the apex materialisation of the index
    pool. *)
Theorem pools_stay_aligned (cfg : config) (peak_df df : list arow)
        (ic0 : list ipath) (pc0 : list apath) :
  search_space cfg peak_df = Ok (df, ic0, pc0) ->
  (forall ic pc top ic' pc',
      align_step (threshold cfg) ic pc = Accept top ic' pc' ->
      In top ic /\ forall r, In r ic' <-> In r ic /\ ~ shares_slot top r)
  /\ (distinct_apexes peak_df ->
      forall n ic pc,
        pools_after (threshold cfg) n ic0 pc0 = Some (ic, pc) ->
        pc = fill_values float_of_index None ic df a_peak_apex
        /\ forall top ic' pc',
            align_step (threshold cfg) ic pc = Accept top ic' pc' ->
            ~ In top ic'
            /\ pc' = fill_values float_of_index None ic' df a_peak_apex).
Proof.
  intro S. split.
  - intros ic pc top ic' pc'. apply align_step_removes.
  - intros D n ic pc H.
    destruct (search_space_pool cfg peak_df df ic0 pc0 S) as (P & -> & _ & Edf).
    assert (D' : distinct_apexes df)
      by (rewrite Edf; now apply distinct_apexes_add_missing).
    destruct (pools_after_sync _ df _ n ic0 ic pc D' P H) as [P' ->].
    split; trivial.
    intros top ic' pc' A.
    destruct (align_step_sync _ df _ ic top ic' pc' D' P' A) as (_ & _ & N & E).
    now split.
Qed.

(** ** How many paths are accepted *)

Lemma insert_key_In (s x : string) (keys : list string) :
  In x (insert_key s keys) <-> x = s \/ In x keys.
Proof.
  induction keys as [|k keys IH]; simpl.
  - intuition.
  - destruct (String.compare s k) eqn:C; simpl.
    + apply String_as_OT.cmp_eq in C. subst. intuition.
    + intuition.
    + rewrite IH. intuition.
Qed.

Lemma insert_key_sorted (s : string) (keys : list string) :
  StronglySorted String_as_OT.lt keys ->
  StronglySorted String_as_OT.lt (insert_key s keys).
Proof.
  induction 1 as [|k keys SS IH F]; simpl.
  - repeat constructor.
  - destruct (String.compare s k) eqn:C.
    + now constructor.
    + apply String_as_OT.cmp_lt in C.
      constructor; [now constructor|]. constructor; trivial.
      rewrite Forall_forall in *. intros y Hy.
      eapply String_as_OT.lt_trans; eauto.
    + constructor; trivial.
      rewrite Forall_forall in *. intros y Hy.
      apply insert_key_In in Hy. destruct Hy as [->|Hy]; [|now apply F].
      apply String_as_OT.cmp_lt. unfold String_as_OT.cmp.
      rewrite String.compare_antisym, C. reflexivity.
Qed.

Lemma sorted_keys_NoDup (l : list string) : NoDup (sorted_keys l).
Proof.
  assert (S : StronglySorted String_as_OT.lt (sorted_keys l)).
  { unfold sorted_keys. induction l; simpl; [constructor|].
    now apply insert_key_sorted. }
  induction S as [|k keys _ IH F]; constructor; trivial.
  intro Hin. rewrite Forall_forall in F.
  exact (String_as_OT.lt_not_eq _ _ (F k Hin) eq_refl).
Qed.




Section Bound.
Context {U : Type}.
Variables (t : Z) (univ : list U) (hit : U -> apath -> bool) (pc0 : list apath).

(** Every apex path with a present slot hits some element of the universe
    that only paths matching it hit. *)
Hypothesis cover :
  forall r, In r pc0 -> forallb np_isnan r = false ->
            exists u, In u univ /\ hit u r = true
                      /\ forall r', hit u r' = true ->
                                    row_matches np_eq r r' = true.


End Bound.





(** ** The loop runs to the end *)

Lemma meshgrid_fold_complete {A} (rest pre : list (list A)) (pool : list (list A)) :
  (forall r, Forall2 (fun x l => In x l) r pre -> In r pool) ->
  forall r,
    Forall2 (fun x l => In x l) r (pre ++ rest) ->
    In r (fold_left
            (fun pool l => flat_map (fun x => map (fun r => r ++ [x]) pool) l)
            rest pool).
Proof.
  revert pre pool. induction rest as [|l rest IH]; intros pre pool H r Hr.
  - simpl. rewrite app_nil_r in Hr. now apply H.
  - simpl.
    replace (pre ++ l :: rest) with ((pre ++ [l]) ++ rest) in Hr
      by (rewrite <- app_assoc; reflexivity).
    apply (IH (pre ++ [l])); [|exact Hr].
    intros r' Hr'. apply Forall2_app_inv_r in Hr'.
    destruct Hr' as (r0 & rx & H0 & Hx & ->).
    inversion Hx as [|x l' rx' ll Hin Hnil]; subst. inversion Hnil; subst.
    apply in_flat_map. exists x. split; trivial.
    apply in_map_iff. exists r0. split; trivial. now apply H.
Qed.

Lemma meshgrid_rows_complete {A} (lists : list (list A)) (pool : list (list A)) :
  meshgrid_rows lists = Ok pool ->
  forall r, Forall2 (fun x l => In x l) r lists -> In r pool.
Proof.
  unfold meshgrid_rows. destruct lists as [|l1 [|l2 rest]]; intro H.
  - discriminate.
  - inversion H; subst. intros r Hr.
    inversion Hr as [|x l rx ll Hin Hnil]; subst. inversion Hnil; subst.
    apply in_map_iff. now exists x.
  - inversion H; subst. intros r Hr.
    change (l1 :: l2 :: rest) with ([l1; l2] ++ rest) in Hr.
    eapply meshgrid_fold_complete; [|exact Hr].
    intros r' Hr'.
    inversion Hr' as [|x1 l rx ll H1 Hr1]; subst.
    inversion Hr1 as [|x2 l' rx' ll' H2 Hr2]; subst. inversion Hr2; subst.
    apply in_flat_map. exists x1. split; trivial.
    apply in_map_iff. now exists x2.
Qed.

Lemma insert_key_nonempty (s : string) (keys : list string) :
  insert_key s keys <> [].
Proof.
  destruct keys as [|k keys]; simpl; [discriminate|].
  destruct (String.compare s k); discriminate.
Qed.

Lemma search_space_runs (cfg : config) (peak_df : list arow) :
  peak_df <> [] ->
  exists df ic pc,
    search_space cfg peak_df = Ok (df, ic, pc)
    /\ runnable df (sorted_keys (map a_condition df)) ic.
Proof.
  intro NE.
  destruct (search_space cfg peak_df) as [[[df ic] pc]|e] eqn:S.
  - exists df, ic, pc. split; trivial.
    destruct (search_space_pool cfg peak_df df ic pc S) as (P & _ & M & _).
    split; [exact P|].
    assert (L : index_lists_of df <> []).
    { intro E. rewrite E in M. discriminate. }
    split.
    + intros r Hr ->. pose proof (meshgrid_rows_In _ _ M [] Hr) as F.
      inversion F. apply L. symmetry. assumption.
    + exists (map (fun _ => None) (index_lists_of df)). split.
      * apply (meshgrid_rows_complete _ _ M).
        rewrite index_lists_of_keys.
        generalize (sorted_keys (map a_condition df)). intro ks.
        induction ks as [|k ks IH]; simpl; constructor; trivial.
        apply in_app_iff. right. now left.
      * unfold all_missing. apply Forall_forall. intros x Hx.
        apply in_map_iff in Hx. now destruct Hx as (_ & <- & _).
  - exfalso. unfold search_space in S.
    set (df := add_missing_conditions cfg _ peak_df) in S.
    destruct (meshgrid_rows (index_lists_of df)) as [pool|e'] eqn:M;
      simpl in S; [discriminate|].
    unfold meshgrid_rows in M. rewrite index_lists_of_keys in M.
    assert (K : sorted_keys (map a_condition df) <> []).
    { assert (D : df <> []).
      { destruct (add_missing_conditions_rows cfg
                    (drop_duplicates
                       (fun a b => list_eqb ostr_eqb (a_group a) (a_group b)) peak_df)
                    peak_df) as [I _].
        destruct peak_df as [|r l]; [congruence|].
        intro E. fold df in I. rewrite E in I. exact (I r (or_introl eq_refl)). }
      destruct df as [|r l]; [congruence|]. simpl. apply insert_key_nonempty. }
    destruct (sorted_keys (map a_condition df)) as [|k [|k' ks]];
      [congruence | discriminate | discriminate].
Qed.









(** Beyond 64 bits the first score raises: the loop never gets to a path. *)
Lemma peak_alignment_type_error (cfg : config) (peak_df : list arow) :
  peak_df <> [] -> fits_64_bits (threshold cfg) = false ->
  peak_alignment cfg peak_df = Raise TypeError.
Proof.
  intros NE Ft. unfold peak_alignment.
  destruct (search_space_runs cfg peak_df NE) as (df & ic & pc & S & R).
  rewrite S. simpl.
  destruct (search_space_pool cfg peak_df df ic pc S) as (_ & Epc & _ & _).
  destruct R as (_ & _ & (z & Hz & _)).
  assert (Lpc : List.length pc = List.length ic).
  { rewrite Epc. unfold fill_values. apply length_map. }
  destruct pc as [|p pc0]; [destruct ic; [contradiction | discriminate]|].
  simpl. unfold path_score at 1, path_mean_dist, nan_to_num. rewrite Ft.
  reflexivity.
Qed.

(** ** The aligner on the worked examples *)

Lemma distinct_apexes_b_sound (peak_df : list arow) :
  distinct_apexes_b peak_df = true -> distinct_apexes peak_df.
Proof.
  unfold distinct_apexes_b. rewrite forallb_forall.
  intros H r1 r2 i1 i2 H1 H2 E1 E2.
  specialize (H r1 H1). rewrite forallb_forall in H. specialize (H r2 H2).
  rewrite E1, E2 in H. apply andb_true_iff in H. destruct H as [A B]. split.
  - intros ->. now rewrite Nat.eqb_refl in A.
  - intros C N. rewrite C, String.eqb_refl, N in B. simpl in B.
    now apply Nat.eqb_eq.
Qed.

Lemma ex_two_by_two_space :
  search_space cfg_two ex_two_by_two = Ok (ex_two_by_two, ex_ic0, ex_pc0).
Proof. vm_compute. reflexivity. Qed.

Lemma ex_two_by_two_first_step :
  align_step (threshold cfg_two) ex_ic0 ex_pc0
  = Accept [Some 0; Some 2]%nat ex_ic1 ex_pc1.
Proof. vm_compute. reflexivity. Qed.

(** C3, as worded, fails: accepting the path (0, 2) also removes the path
    (0, 3), whose index vector is another one. *)
Lemma removal_is_not_by_equal_vector :
  search_space cfg_two ex_two_by_two = Ok (ex_two_by_two, ex_ic0, ex_pc0)
  /\ align_step (threshold cfg_two) ex_ic0 ex_pc0
     = Accept [Some 0; Some 2]%nat ex_ic1 ex_pc1
  /\ ~ removed_exactly_equal ex_ic0 ex_ic1 [Some 0; Some 2]%nat.
Proof.
  split; [exact ex_two_by_two_space|]. split; [exact ex_two_by_two_first_step|].
  intro H.
  assert (I : In [Some 0; Some 3]%nat ex_ic0) by (simpl; auto).
  destruct (H _ I) as [K _].
  assert (E : [Some 0; Some 3]%nat = [Some 0; Some 2]%nat).
  { apply K. simpl. intros [E|[E|[E|[E|[]]]]]; discriminate. }
  discriminate.
Qed.

Lemma pools_stay_aligned_witness :
  search_space cfg_two ex_two_by_two = Ok (ex_two_by_two, ex_ic0, ex_pc0)
  /\ (forall ic pc top ic' pc',
        align_step (threshold cfg_two) ic pc = Accept top ic' pc' ->
        In top ic /\ forall r, In r ic' <-> In r ic /\ ~ shares_slot top r)
  /\ distinct_apexes ex_two_by_two
  /\ pools_after (threshold cfg_two) 1 ex_ic0 ex_pc0 = Some (ex_ic1, ex_pc1)
  /\ ex_pc1 = fill_values float_of_index None ex_ic1 ex_two_by_two a_peak_apex
  /\ forall top ic' pc',
      align_step (threshold cfg_two) ex_ic1 ex_pc1 = Accept top ic' pc' ->
      ~ In top ic'
      /\ pc' = fill_values float_of_index None ic' ex_two_by_two a_peak_apex.
Proof.
  assert (S : search_space cfg_two ex_two_by_two
              = Ok (ex_two_by_two, ex_ic0, ex_pc0))
    by (vm_compute; reflexivity).
  assert (D : distinct_apexes ex_two_by_two)
    by (apply distinct_apexes_b_sound; vm_compute; reflexivity).
  assert (P : pools_after (threshold cfg_two) 1 ex_ic0 ex_pc0
              = Some (ex_ic1, ex_pc1))
    by (vm_compute; reflexivity).
  split; [exact S|].
  split; [exact (proj1 (pools_stay_aligned cfg_two _ _ _ _ S))|].
  split; [exact D|]. split; [exact P|].
  exact (proj2 (pools_stay_aligned cfg_two _ _ _ _ S) D 1%nat ex_ic1 ex_pc1 P).
Defined.

Lemma peak_alignment_tracks_disjoint_witness :
  peak_alignment cfg_two ex_two_by_two
  = Ok [[Some 0; Some 2]; [Some 1; Some 3]]%nat
  /\ forall j, NoDup (column j [[Some 0; Some 2]; [Some 1; Some 3]]%nat).
Proof.
  assert (E : peak_alignment cfg_two ex_two_by_two
              = Ok [[Some 0; Some 2]; [Some 1; Some 3]]%nat)
    by (vm_compute; reflexivity).
  split; [exact E|].
  exact (peak_alignment_tracks_disjoint cfg_two ex_two_by_two _ E).
Defined.



(** C5 at its failing input: the two peaks of B and the first peak of C share
    the apex 20; the loop returns four paths, the last of them without any
    peak. *)
Theorem equal_apexes_accept_missing_path :
  peak_alignment cfg_three ex_equal_apexes
  = Ok [[None; Some 2; Some 4]; [Some 1; Some 3; Some 5];
        [Some 0; None; None]; [None; None; None]]%nat
  /\ all_missing (nth 3 [[None; Some 2; Some 4]; [Some 1; Some 3; Some 5];
                         [Some 0; None; None]; [None; None; None]]%nat []).
Proof.
  split; [vm_compute; reflexivity|].
  simpl. repeat constructor.
Qed.

(** ** Groups without global peaks *)

Lemma mapM_app {A B} (f : A -> result B) (a b : list A) :
  mapM f (a ++ b) = (x <- mapM f a ;; y <- mapM f b ;; Ok (x ++ y)).
Proof.
  induction a as [|h a IH]; simpl.
  - destruct (mapM f b); reflexivity.
  - destruct (f h) as [v|e]; simpl; trivial.
    rewrite IH. destruct (mapM f a) as [x|e]; simpl; trivial.
    destruct (mapM f b) as [y|e]; reflexivity.
Qed.

Lemma pd_concat_skip_None {A} (xs ys : list (option (list A))) :
  pd_concat (xs ++ None :: ys) = pd_concat (xs ++ ys).
Proof. unfold pd_concat. rewrite !flat_map_app. reflexivity. Qed.

Lemma clustered_table_skip (cfg : config) (before after : list (list peak))
      (g : list peak) :
  matching_i cfg g = Ok None ->
  clustered_table cfg (before ++ g :: after) = clustered_table cfg (before ++ after).
Proof.
  intro H. unfold clustered_table. rewrite !mapM_app. simpl. rewrite H. simpl.
  destruct (mapM (matching_i cfg) before) as [x|e]; simpl; trivial.
  destruct (mapM (matching_i cfg) after) as [y|e]; simpl; trivial.
  apply pd_concat_skip_None.
Qed.

Lemma no_global_rows (input_df : list peak) :
  (forall r, In r input_df -> ptm r <> "global") ->
  filter (fun r => String.eqb (ptm r) "global") input_df = [].
Proof.
  induction input_df as [|r l IH]; intro H; simpl; trivial.
  destruct (String.eqb (ptm r) "global") eqn:E.
  - apply String.eqb_eq in E. exfalso. apply (H r); [now left | exact E].
  - apply IH. intros x Hx. apply H. now right.
Qed.

(** C9.  For a group without a row tagged "global", [ptm_matching] returns
    the absent result, so does [matching_i], and the table [main] builds is
    the one it builds without that group. *)
Theorem no_global_peaks_no_contribution (cfg : config) (input_df : list peak) :
  (forall r, In r input_df -> ptm r <> "global") ->
  ptm_matching cfg input_df = Ok None
  /\ matching_i cfg input_df = Ok None
  /\ forall before after,
      clustered_table cfg (before ++ input_df :: after)
      = clustered_table cfg (before ++ after).
Proof.
  intro H.
  assert (P : ptm_matching cfg input_df = Ok None).
  { unfold ptm_matching. rewrite (no_global_rows input_df H). reflexivity. }
  assert (M : matching_i cfg input_df = Ok None).
  { unfold matching_i. rewrite P. reflexivity. }
  split; [exact P|]. split; [exact M|].
  intros before after. now apply clustered_table_skip.
Qed.

Lemma no_global_peaks_no_contribution_witness :
  (forall r, In r ex_no_global -> ptm r <> "global")
  /\ ptm_matching cfg_phospho ex_no_global = Ok None
  /\ matching_i cfg_phospho ex_no_global = Ok None
  /\ forall before after,
      clustered_table cfg_phospho (before ++ ex_no_global :: after)
      = clustered_table cfg_phospho (before ++ after).
Proof.
  assert (H : forall r, In r ex_no_global -> ptm r <> "global").
  { intros r [<-|[]]. discriminate. }
  split; [exact H|].
  exact (no_global_peaks_no_contribution cfg_phospho ex_no_global H).
Defined.

(** ** The matcher on the worked examples *)

(** C2 at its failing input: the group has an acetyl and a phospho peak, both
    matching the global peak, and the table returned has the phospho columns
    only. *)
Theorem only_last_channel_is_kept :
  ptm_matching cfg_channels ex_two_channels
  = Ok (Some [mkErow (peak_at "global" "g1" 20 18 22) 1
                     [("phospho", IntCell 1); ("peak_id_ptm", StrCell "p1")]])
  /\ column_of "acetyl"
               (mkErow (peak_at "global" "g1" 20 18 22) 1
                       [("phospho", IntCell 1); ("peak_id_ptm", StrCell "p1")])
     = None.
Proof. split; vm_compute; reflexivity. Qed.



(** ** Keys of the matcher's joins *)

Lemma ostr_eqb_eq (a b : option string) : ostr_eqb a b = true <-> a = b.
Proof.
  destruct a as [x|], b as [y|]; simpl; split; intro H;
    try discriminate; try reflexivity.
  - apply String.eqb_eq in H. now subst.
  - inversion H. apply String.eqb_refl.
Qed.

Lemma key_eqb_spec (cfg : config) (a b : peak) :
  key_eqb cfg a b = true
  <-> (forall c, In c (group_cols cfg) -> get_gcol c a = get_gcol c b)
      /\ condition a = condition b.
Proof.
  unfold key_eqb. rewrite andb_true_iff, forallb_forall, String.eqb_eq.
  split; intros [H1 H2]; split; trivial; intros c Hc.
  - now apply ostr_eqb_eq, H1.
  - now apply ostr_eqb_eq, H1.
Qed.


Lemma key_float_eqb_sym (a b : float) :
  key_float_eqb a b = true -> key_float_eqb b a = true.
Proof. destruct a, b; simpl; trivial. apply Qeq_bool_sym. Qed.

Lemma key_float_eqb_trans (a b c : float) :
  key_float_eqb a b = true -> key_float_eqb b c = true -> key_float_eqb a c = true.
Proof. destruct a, b, c; simpl; try discriminate; trivial. apply Qeq_bool_trans. Qed.


Lemma akey_eqb_sym (cfg : config) (a b : peak) :
  akey_eqb cfg a b = true -> akey_eqb cfg b a = true.
Proof.
  unfold akey_eqb. rewrite !andb_true_iff, !key_eqb_spec.
  intros [[H1 H2] H3]. repeat split.
  - intros c Hc. symmetry. now apply H1.
  - now symmetry.
  - now apply key_float_eqb_sym.
Qed.

Lemma akey_eqb_trans (cfg : config) (a b c : peak) :
  akey_eqb cfg a b = true -> akey_eqb cfg b c = true -> akey_eqb cfg a c = true.
Proof.
  unfold akey_eqb. rewrite !andb_true_iff, !key_eqb_spec.
  intros [[H1 H2] H3] [[K1 K2] K3]. repeat split.
  - intros x Hx. rewrite H1, K1; trivial.
  - congruence.
  - eapply key_float_eqb_trans; eauto.
Qed.

(** ** Data-frame helpers *)


Lemma merge_left_In {A B} (on : A -> B -> bool) (left : list A) (right : list B)
      (a : A) (ob : option B) :
  In (a, ob) (merge_left on left right) ->
  In a left
  /\ match ob with
     | Some b => In b right /\ on a b = true
     | None => filter (on a) right = []
     end.
Proof.
  unfold merge_left. rewrite in_flat_map. intros (a' & Ha & H).
  destruct (filter (on a') right) as [|b0 ms] eqn:F.
  - destruct H as [H|[]]. inversion H; subst. now split.
  - apply in_map_iff in H. destruct H as (b & E & Hb). inversion E; subst.
    split; trivial. rewrite <- F in Hb. now apply filter_In in Hb.
Qed.

Lemma merge_left_covers {A B} (on : A -> B -> bool) (left : list A)
      (right : list B) (a : A) :
  In a left -> exists ob, In (a, ob) (merge_left on left right).
Proof.
  intro Ha. unfold merge_left.
  destruct (filter (on a) right) as [|b0 ms] eqn:F.
  - exists None. apply in_flat_map. exists a. split; trivial. rewrite F. now left.
  - exists (Some b0). apply in_flat_map. exists a. split; trivial. rewrite F.
    now left.
Qed.

Lemma mapM_In {A B} (f : A -> result B) (l : list A) (t : list B) :
  mapM f l = Ok t -> forall y, In y t -> exists x, In x l /\ f x = Ok y.
Proof.
  revert t. induction l as [|a l IH]; intros t H y Hy; simpl in H.
  - inversion H; subst. contradiction.
  - destruct (f a) as [b|e] eqn:Fa; simpl in H; [|discriminate].
    destruct (mapM f l) as [bs|e]; simpl in H; [|discriminate].
    inversion H; subst. destruct Hy as [<-|Hy].
    + exists a. split; [now left | exact Fa].
    + destruct (IH bs eq_refl y Hy) as (x & Hx & E). exists x. split; auto.
      now right.
Qed.


Lemma groupby_In {A} (key : A -> string) (df : list A) (grp : string * list A) :
  In grp (groupby key df) ->
  snd grp = filter (fun r => String.eqb (key r) (fst grp)) df
  /\ In (fst grp) (map key df).
Proof.
  unfold groupby. rewrite in_map_iff. intros (k & <- & Hk). split; trivial.
  unfold sorted_keys in Hk. revert Hk. generalize (map key df). intro l.
  induction l as [|s l IH]; simpl; [tauto|].
  intro H. apply insert_key_In in H. destruct H as [->|H]; auto.
Qed.

(** ** A global peak that nothing matches *)








Lemma existsb_ext_on {A} (f g : A -> bool) (l : list A) :
  (forall x, In x l -> f x = g x) -> existsb f l = existsb g l.
Proof.
  induction l as [|a l IH]; intro H; simpl; trivial.
  rewrite (H a (or_introl eq_refl)), IH; trivial.
  intros x Hx. apply H. now right.
Qed.

Lemma get_gcol_set_cluster (c : gcol) (g : peak) (x : option string) :
  c <> Cluster -> get_gcol c (set_cluster g x) = get_gcol c g.
Proof. destruct c; simpl; congruence. Qed.

Lemma not_in_group_cols (cfg : config) (c : gcol) :
  in_group_cols cfg Cluster = false -> In c (group_cols cfg) -> c <> Cluster.
Proof.
  unfold in_group_cols. intros H Hc ->.
  assert (K : existsb (gcol_eqb Cluster) (group_cols cfg) = true)
    by (apply existsb_exists; exists Cluster; split; trivial).
  congruence.
Qed.






Lemma channel_fold_last (cfg : config) (global_df : list peak)
      (groups : list (string * list peak)) :
  forall acc t,
    fold_left (fun acc grp =>
                 _ <- acc ;;
                 t <- channel_table cfg global_df (fst grp) (snd grp) ;;
                 Ok (Some t)) groups acc = Ok (Some t) ->
    acc = Ok (Some t)
    \/ exists grp, In grp groups
                   /\ channel_table cfg global_df (fst grp) (snd grp) = Ok t.
Proof.
  induction groups as [|grp groups IH]; intros acc t H; simpl in H.
  - now left.
  - right. destruct (IH _ _ H) as [E|(grp' & Hin & E)].
    + exists grp. split; [now left|].
      destruct acc as [a|e]; simpl in E; [|discriminate].
      destruct (channel_table cfg global_df (fst grp) (snd grp)) as [t'|e];
        simpl in E; [|discriminate].
      now inversion E.
    + exists grp'. split; [now right | exact E].
Qed.

Lemma add_missing_ptms_rows (cfg : config) (skeleton_df ptm_df : list peak) :
  forall p, In p (add_missing_ptms cfg skeleton_df ptm_df) ->
            In p ptm_df \/ (peak_apex p = None /\ ptm p <> "global").
Proof.
  unfold add_missing_ptms. generalize (ptms cfg). intro cs. revert ptm_df.
  induction cs as [|c cs IH]; intros df p Hp; simpl in Hp; [now left|].
  apply IH in Hp. destruct Hp as [Hp|Hp]; [|now right].
  destruct (negb (existsb (String.eqb c) (map ptm df))
            && negb (String.eqb c "global")) eqn:E; [|now left].
  apply in_app_iff in Hp. destruct Hp as [Hp|Hp]; [now left|].
  right. apply in_map_iff in Hp. destruct Hp as (s & <- & _). simpl.
  split; trivial.
  apply andb_true_iff in E. destruct E as [_ E]. apply negb_true_iff in E.
  now apply String.eqb_neq.
Qed.



(** ** More on the match rule *)

Lemma SFabs_round_aux (s : bool) (mx ex : Z) (lx : location) :
  SFabs (binary_round_aux 53 1024 s mx ex lx)
  = binary_round_aux 53 1024 false mx ex lx.
Proof.
  unfold binary_round_aux.
  destruct (shr_fexp 53 1024 mx ex lx) as [mrs' e'].
  destruct (shr_fexp 53 1024 _ e' loc_Exact) as [mrs'' e''].
  destruct (shr_m mrs''); trivial.
  destruct (Z.leb e'' (1024 - 53)); reflexivity.
Qed.

Lemma SFabs_normalize_opp (m e : Z) :
  SFabs (binary_normalize 53 1024 (- m) e false)
  = SFabs (binary_normalize 53 1024 m e false).
Proof.
  destruct m as [|p|p]; trivial; simpl; unfold binary_round;
    destruct (shl_align p e _) as [mz ez]; now rewrite !SFabs_round_aux.
Qed.

(** The absolute binary64 difference does not depend on the order of the
    operands. *)
Lemma SFabs_sub_sym (a b : spec_float) :
  SFabs (b64_sub a b) = SFabs (b64_sub b a).
Proof.
  unfold b64_sub.
  destruct a as [sa|sa| |sa ma ea], b as [sb|sb| |sb mb eb]; trivial;
    try (destruct sa, sb; reflexivity).
  unfold SFsub. rewrite (Z.min_comm eb ea).
  rewrite <- SFabs_normalize_opp. f_equal. f_equal. lia.
Qed.

(** X1.  The match rule does not depend on which of the two peaks is the
    global one: exchanging them gives the same flag. *)
Theorem ptm_eval_symmetric (g p : peak) (cutoff : spec_float) :
  ptm_eval_row (mkMerged g (Some p)) cutoff
  = ptm_eval_row (mkMerged p (Some g)) cutoff.
Proof.
  unfold ptm_eval_row, peak_apex_ptm, peak_left_ptm, peak_right_ptm, np_gt.
  simpl.
  rewrite (SFabs_sub_sym (b64_of_cell (peak_apex g))).
  rewrite (orb_comm (np_lt (peak_right g) (peak_left p))).
  reflexivity.
Qed.

(** The order of binary64 on the three operands of a comparison chain. *)
Lemma SFltb_leb_trans (x c c' : spec_float) :
  SFltb x c = true -> SFleb c c' = true -> SFltb x c' = true.
Proof.
  unfold SFltb, SFleb.
  destruct x as [sx|sx| |sx mx ex], c as [sc|sc| |sc mc ec],
           c' as [sd|sd| |sd md ed];
    simpl; try discriminate; try reflexivity;
    try (destruct sx; simpl; try discriminate; try reflexivity);
    try (destruct sc; simpl; try discriminate; try reflexivity);
    try (destruct sd; simpl; try discriminate; try reflexivity);
    try (intros; discriminate);
    rewrite <- ?Pos.compare_cont_spec; fold (Pos.compare mx mc);
    rewrite ?Pos.compare_cont_spec;
    change (Pos.compare_cont Eq mx mc) with (Pos.compare mx mc);
    change (Pos.compare_cont Eq mc md) with (Pos.compare mc md);
    change (Pos.compare_cont Eq mx md) with (Pos.compare mx md);
    destruct (Z.compare_spec ex ec); destruct (Z.compare_spec ec ed);
    destruct (Z.compare_spec ex ed); try lia;
    destruct (Pos.compare_spec mx mc); destruct (Pos.compare_spec mc md);
    destruct (Pos.compare_spec mx md); simpl;
    try discriminate; try reflexivity; try lia; intros; try discriminate.
Qed.

Lemma SFabs_not_below_zero (y c : spec_float) :
  SFleb c (S754_zero false) = true -> SFltb (SFabs y) c = false.
Proof.
  unfold SFltb, SFleb.
  destruct y as [sy|sy| |sy my ey], c as [sc|sc| |sc mc ec]; simpl; trivial;
    try (destruct sc; simpl; trivial; discriminate).
Qed.

(** X2.  Raising the cutoff never loses a match, and with a cutoff of 0 or
    below no pair matches. *)
Theorem ptm_eval_cutoff (r : merged) (cutoff cutoff' : spec_float) :
  (SFleb cutoff cutoff' = true -> ptm_eval_row r cutoff = 1%Z ->
   ptm_eval_row r cutoff' = 1%Z)
  /\ (SFleb cutoff (S754_zero false) = true -> ptm_eval_row r cutoff = 0%Z).
Proof.
  split.
  - intros L H. apply ptm_eval_row_one in H. apply ptm_eval_row_one.
    destruct H as [K N]. split; trivial.
    unfold apex_within64 in *. exact (SFltb_leb_trans _ _ _ K L).
  - intro L. unfold ptm_eval_row.
    rewrite (SFabs_not_below_zero _ cutoff L). reflexivity.
Qed.

Lemma ptm_eval_cutoff_witness :
  SFleb (b64_of_Z 3) (b64_of_Z 5) = true
  /\ ptm_eval_row ex_cutoff_row (b64_of_Z 3) = 1%Z
  /\ ptm_eval_row ex_cutoff_row (b64_of_Z 5) = 1%Z
  /\ SFleb (b64_of_Z 0) (S754_zero false) = true
  /\ ptm_eval_row ex_cutoff_row (b64_of_Z 0) = 0%Z.
Proof.
  assert (L : SFleb (b64_of_Z 3) (b64_of_Z 5) = true) by (vm_compute; reflexivity).
  assert (H : ptm_eval_row ex_cutoff_row (b64_of_Z 3) = 1%Z)
    by (vm_compute; reflexivity).
  assert (Z : SFleb (b64_of_Z 0) (S754_zero false) = true)
    by (vm_compute; reflexivity).
  split; [exact L|]. split; [exact H|].
  split; [exact (proj1 (ptm_eval_cutoff ex_cutoff_row _ _) L H)|].
  split; [exact Z|].
  exact (proj2 (ptm_eval_cutoff ex_cutoff_row _ (b64_of_Z 0)) Z).
Defined.

(** ** Edge behaviour of the matcher and of [main] *)

Lemma filter_all {A} (f : A -> bool) (l : list A) :
  (forall x, In x l -> f x = true) -> filter f l = l.
Proof.
  induction l as [|a l IH]; intro H; simpl; trivial.
  rewrite (H a (or_introl eq_refl)), IH; trivial.
  intros x Hx. apply H. now right.
Qed.

Lemma filter_nothing {A} (f : A -> bool) (l : list A) :
  (forall x, In x l -> f x = false) -> filter f l = [].
Proof.
  induction l as [|a l IH]; intro H; simpl; trivial.
  rewrite (H a (or_introl eq_refl)). apply IH.
  intros x Hx. apply H. now right.
Qed.

Lemma add_missing_ptms_only_global (cfg : config) (skeleton_df ptm_df : list peak) :
  (forall p, In p (ptms cfg) -> p = "global") ->
  add_missing_ptms cfg skeleton_df ptm_df = ptm_df.
Proof.
  unfold add_missing_ptms. generalize (ptms cfg). intro ps. revert ptm_df.
  induction ps as [|p ps IH]; intros df H; simpl; trivial.
  rewrite (H p (or_introl eq_refl)), String.eqb_refl, andb_false_r.
  apply IH. intros q Hq. apply H. now right.
Qed.

(** X3.  When 'global' is the only PTM label of the data set, a group with
    peaks has no channel to iterate over and [ptm_matching] fails on its
    unbound result variable. *)
Theorem ptm_matching_without_channels (cfg : config) (input_df : list peak) :
  input_df <> [] ->
  (forall r, In r input_df -> ptm r = "global") ->
  (forall p, In p (ptms cfg) -> p = "global") ->
  ptm_matching cfg input_df = Raise UnboundLocalError.
Proof.
  intros NE G P. unfold ptm_matching.
  rewrite (filter_all (fun r => String.eqb (ptm r) "global") input_df)
    by (intros x Hx; now rewrite (G x Hx)).
  rewrite (filter_nothing (fun r => negb (String.eqb (ptm r) "global")) input_df)
    by (intros x Hx; now rewrite (G x Hx)).
  rewrite add_missing_ptms_only_global by exact P.
  destruct input_df as [|r l]; [congruence|]. reflexivity.
Qed.

Lemma ptm_matching_without_channels_witness :
  [peak_at "global" "g1" 20 18 22] <> []
  /\ (forall r, In r [peak_at "global" "g1" 20 18 22] -> ptm r = "global")
  /\ (forall p, In p (ptms cfg_two) -> p = "global")
  /\ ptm_matching cfg_two [peak_at "global" "g1" 20 18 22]
     = Raise UnboundLocalError.
Proof.
  assert (NE : [peak_at "global" "g1" 20 18 22] <> []) by discriminate.
  assert (G : forall r, In r [peak_at "global" "g1" 20 18 22] -> ptm r = "global").
  { intros r [<-|[]]. reflexivity. }
  assert (P : forall p, In p (ptms cfg_two) -> p = "global").
  { intros p [<-|[]]. reflexivity. }
  split; [exact NE|]. split; [exact G|]. split; [exact P|].
  exact (ptm_matching_without_channels cfg_two _ NE G P).
Defined.

Lemma matching_i_absent (cfg : config) (input_df : list peak) :
  (forall r, In r input_df -> ptm r <> "global") ->
  matching_i cfg input_df = Ok None.
Proof.
  intro H. unfold matching_i, ptm_matching.
  rewrite (no_global_rows input_df H). reflexivity.
Qed.

(** X4.  When no group has a global peak, every group is skipped and the
    concatenation in [main] has nothing to concatenate: it raises
    ValueError. *)
Theorem all_groups_absent (cfg : config) (match_df_list : list (list peak)) :
  (forall g r, In g match_df_list -> In r g -> ptm r <> "global") ->
  clustered_table cfg match_df_list = Raise ValueError.
Proof.
  intro H. unfold clustered_table.
  assert (M : mapM (matching_i cfg) match_df_list
              = Ok (map (fun _ => None) match_df_list)).
  { induction match_df_list as [|g l IH]; simpl; trivial.
    rewrite (matching_i_absent cfg g) by (intros r Hr; apply (H g); auto; now left).
    simpl. rewrite IH; trivial.
    intros g' r Hg'. apply H. now right. }
  rewrite M. simpl. unfold pd_concat.
  assert (F : flat_map (fun o : option (list track) =>
                          match o with Some t => [t] | None => [] end)
                       (map (fun _ => None) match_df_list) = []).
  { clear. induction match_df_list; simpl; trivial. }
  now rewrite F.
Qed.

Lemma all_groups_absent_witness :
  (forall g r, In g [ex_no_global; ex_no_global] -> In r g -> ptm r <> "global")
  /\ clustered_table cfg_phospho [ex_no_global; ex_no_global] = Raise ValueError.
Proof.
  assert (H : forall g r, In g [ex_no_global; ex_no_global] -> In r g ->
                          ptm r <> "global").
  { intros g r [<-|[<-|[]]] [<-|[]]; discriminate. }
  split; [exact H|].
  exact (all_groups_absent cfg_phospho _ H).
Defined.

(** ** The size of the search space *)




Lemma Forall2_length_eq {A B} (R : A -> B -> Prop) (l : list A) (l' : list B) :
  Forall2 R l l' -> List.length l = List.length l'.
Proof. induction 1; simpl; congruence. Qed.



(** ** The table of the matcher, row by row *)

Lemma drop_duplicates_incl {A} (eqb : A -> A -> bool) (l : list A) :
  incl (drop_duplicates eqb l) l.
Proof.
  induction l as [|r l IH]; simpl; [apply incl_refl|].
  intros x [->|Hx]; [now left|]. right. apply IH.
  apply filter_In in Hx. tauto.
Qed.

Lemma drop_duplicates_one {A} (eqb : A -> A -> bool) (l : list A) (g : A) :
  (forall x y, eqb x y = true -> eqb y x = true) ->
  (forall x y z, eqb x y = true -> eqb y z = true -> eqb x z = true) ->
  (List.length (filter (fun k => eqb g k) (drop_duplicates eqb l)) <= 1)%nat.
Proof.
  intros Sy Tr. induction l as [|r l IH]; simpl; [lia|].
  destruct (eqb g r) eqn:E; simpl.
  - assert (F : filter (fun k => eqb g k)
                       (filter (fun r' => negb (eqb r r')) (drop_duplicates eqb l))
                = []).
    { apply filter_nothing. intros x Hx. apply filter_In in Hx.
      destruct Hx as [_ Hx]. apply negb_true_iff in Hx.
      destruct (eqb g x) eqn:G; trivial.
      rewrite (Tr r g x (Sy _ _ E) G) in Hx. discriminate. }
    rewrite F. simpl. lia.
  - eapply Nat.le_trans; [|exact IH].
    clear. induction (drop_duplicates eqb l) as [|x d IHd]; simpl; [lia|].
    destruct (negb (eqb r x)); simpl; destruct (eqb g x); simpl; lia.
Qed.

Lemma merge_left_cons {A B} (on : A -> B -> bool) (a : A) (left : list A)
      (right : list B) :
  merge_left on (a :: left) right
  = match filter (on a) right with
    | [] => [(a, None)]
    | ms => map (fun b => (a, Some b)) ms
    end ++ merge_left on left right.
Proof. reflexivity. Qed.

Lemma merge_left_fst {A B} (on : A -> B -> bool) (left : list A) (right : list B) :
  (forall a, In a left -> (List.length (filter (on a) right) <= 1)%nat) ->
  map fst (merge_left on left right) = left.
Proof.
  induction left as [|a l IH]; intro H; [reflexivity|].
  rewrite merge_left_cons, map_app, IH by (intros x Hx; apply H; now right).
  specialize (H a (or_introl eq_refl)).
  destruct (filter (on a) right) as [|b [|b' ms]]; simpl in *; trivial; lia.
Qed.

Lemma mapM_map {A B C} (f : A -> result B) (h : B -> C) (k : A -> C)
      (l : list A) (t : list B) :
  mapM f l = Ok t ->
  (forall x y, In x l -> f x = Ok y -> h y = k x) ->
  map h t = map k l.
Proof.
  revert t. induction l as [|a l IH]; intros t H K; simpl in H.
  - now inversion H.
  - destruct (f a) as [b|e] eqn:Fa; simpl in H; [|discriminate].
    destruct (mapM f l) as [bs|e]; simpl in H; [|discriminate].
    inversion H; subst. simpl. f_equal.
    + apply K; [now left | exact Fa].
    + apply IH; trivial. intros x y Hx. apply K. now right.
Qed.

Lemma groupby_agg_one (cfg : config) (rows : list summary_row) (g : peak) :
  (List.length (filter (fun s => akey_eqb cfg g (g_key s)) (groupby_agg cfg rows))
   <= 1)%nat.
Proof.
  unfold groupby_agg.
  set (rows' := filter (fun r => negb (key_has_nan cfg (s_global r))) rows).
  set (mk := fun k => {| g_key := k; g_count := _; g_cluster_ptm := _;
                         g_peak_id_ptm := _ |}).
  pose proof (drop_duplicates_one (akey_eqb cfg) (map s_global rows') g
                                  (akey_eqb_sym cfg) (akey_eqb_trans cfg)) as L.
  eapply Nat.le_trans; [|exact L].
  generalize (drop_duplicates (akey_eqb cfg) (map s_global rows')). intro d.
  induction d as [|k d IH]; simpl; [lia|].
  destruct (akey_eqb cfg g k); simpl; lia.
Qed.

Lemma channel_table_rows (cfg : config) (global_df : list peak) (ch : string)
      (rows : list peak) (t : list erow) :
  channel_table cfg global_df ch rows = Ok t ->
  map (fun row => set_cluster (e_peak row) None) t
  = map (fun g => set_cluster g None) global_df
  /\ (in_group_cols cfg Cluster = true -> map e_peak t = global_df)
  /\ Forall (fun row => e_global row = 1%Z) t.
Proof.
  unfold channel_table.
  set (summ := groupby_agg cfg _).
  set (final := merge_left _ global_df summ).
  assert (F : map fst final = global_df).
  { apply merge_left_fst. intros a _. apply groupby_agg_one. }
  destruct (in_group_cols cfg Cluster) eqn:C; intro H.
  - clearbody final. injection H as <-.
    split; [|split].
    + transitivity (map (fun g => set_cluster g None) (map fst final));
        [|f_equal; exact F].
      rewrite !map_map. apply map_ext. intros [g [s|]]; reflexivity.
    + intros _. transitivity (map fst final); [|exact F].
      rewrite map_map. apply map_ext. intros [g [s|]]; reflexivity.
    + apply Forall_forall. intros row Hrow. apply in_map_iff in Hrow.
      destruct Hrow as ([g [s|]] & <- & _); reflexivity.
  - clearbody final. split; [|split].
    + transitivity (map (fun g => set_cluster g None) (map fst final));
        [|f_equal; exact F].
      rewrite map_map.
      apply (mapM_map _ _ _ _ _ H).
      intros [g [s|]] y _ E; simpl in E; [|discriminate].
      inversion E; subst. reflexivity.
    + discriminate.
    + apply Forall_forall. intros row Hrow.
      destruct (mapM_In _ _ _ H row Hrow) as ([g [s|]] & _ & E); simpl in E;
        [|discriminate].
      inversion E; subst. reflexivity.
Qed.

Lemma ptm_matching_table_rows (cfg : config) (input_df : list peak)
        (table : list erow) :
  ptm_matching cfg input_df = Ok (Some table) ->
  map (fun row => set_cluster (e_peak row) None) table
  = map (fun g => set_cluster g None)
        (filter (fun r => String.eqb (ptm r) "global") input_df)
  /\ (in_group_cols cfg Cluster = true ->
      map e_peak table = filter (fun r => String.eqb (ptm r) "global") input_df)
  /\ Forall (fun row => e_global row = 1%Z) table.
Proof.
  unfold ptm_matching.
  set (global_df := filter (fun r => String.eqb (ptm r) "global") input_df).
  destruct (List.length global_df =? 0)%nat; [discriminate|].
  intro H.
  destruct (fold_left _ _ (Ok None)) as [[t|]|e] eqn:F; simpl in H;
    try discriminate.
  inversion H; subst t. clear H.
  apply channel_fold_last in F. destruct F as [F|(grp & _ & F)]; [discriminate|].
  exact (channel_table_rows cfg global_df (fst grp) (snd grp) table F).
Qed.

(** X6.  The table [ptm_matching] returns has exactly one row per global
    peak of the group, in the order of the input; a row keeps every column of
    its peak, except that [cluster] is rewritten when it is not a group
    column; the column [global] is 1 throughout. *)
Theorem ptm_matching_rows (cfg : config) (input_df : list peak)
        (table : list erow) :
  ptm_matching cfg input_df = Ok (Some table) ->
  map (fun row => set_cluster (e_peak row) None) table
  = map (fun g => set_cluster g None)
        (filter (fun r => String.eqb (ptm r) "global") input_df)
  /\ (in_group_cols cfg Cluster = true ->
      map e_peak table = filter (fun r => String.eqb (ptm r) "global") input_df)
  /\ Forall (fun row => e_global row = 1%Z) table.
Proof. apply ptm_matching_table_rows. Qed.

Lemma ptm_matching_rows_witness :
  ptm_matching cfg_phospho ex_same_apex = Ok (Some ex_same_apex_table)
  /\ map (fun row => set_cluster (e_peak row) None) ex_same_apex_table
     = map (fun g => set_cluster g None)
           (filter (fun r => String.eqb (ptm r) "global") ex_same_apex)
  /\ (in_group_cols cfg_phospho Cluster = true ->
      map e_peak ex_same_apex_table
      = filter (fun r => String.eqb (ptm r) "global") ex_same_apex)
  /\ Forall (fun row => e_global row = 1%Z) ex_same_apex_table.
Proof.
  assert (E : ptm_matching cfg_phospho ex_same_apex = Ok (Some ex_same_apex_table))
    by (vm_compute; reflexivity).
  split; [exact E|].
  exact (ptm_matching_rows cfg_phospho ex_same_apex ex_same_apex_table E).
Defined.

(** ** The match count of a global peak *)



Lemma filter_filter {A} (f g : A -> bool) (l : list A) :
  filter f (filter g l) = filter (fun x => g x && f x) l.
Proof.
  induction l as [|a l IH]; simpl; trivial.
  destruct (g a); simpl; [destruct (f a); simpl|]; now rewrite IH.
Qed.


Lemma key_has_nan_class (cfg : config) (a b : peak) :
  akey_eqb cfg a b = true -> key_has_nan cfg a = key_has_nan cfg b.
Proof.
  unfold akey_eqb, key_has_nan. rewrite andb_true_iff, key_eqb_spec.
  intros [[H _] F]. f_equal.
  - apply existsb_ext_on. intros c Hc. now rewrite (H c Hc).
  - destruct (peak_apex a), (peak_apex b); simpl in *; trivial; discriminate.
Qed.





Lemma flag_of_set_cluster (cfg : config) (g p : peak) (x : option string) :
  flag_of cfg (set_cluster g x) p = flag_of cfg g p.
Proof. reflexivity. Qed.









(** ** The slots of an accepted path *)

Lemma sorted_keys_sorted (l : list string) :
  StronglySorted String_as_OT.lt (sorted_keys l).
Proof.
  unfold sorted_keys. induction l; simpl; [constructor|].
  now apply insert_key_sorted.
Qed.

Lemma sorted_keys_In (l : list string) (x : string) :
  In x (sorted_keys l) <-> In x l.
Proof.
  unfold sorted_keys. induction l as [|s l IH]; simpl; [tauto|].
  rewrite insert_key_In, IH. intuition.
Qed.

Lemma sorted_same_elements (a b : list string) :
  StronglySorted String_as_OT.lt a -> StronglySorted String_as_OT.lt b ->
  (forall x, In x a <-> In x b) -> a = b.
Proof.
  intro Sa. revert b. induction Sa as [|x a Sa IH Fa]; intros b Sb H.
  - destruct b as [|y b]; trivial. exfalso. apply (H y). now left.
  - destruct Sb as [|y b Sb Fb].
    + exfalso. apply (H x). now left.
    + rewrite Forall_forall in Fa, Fb.
      assert (E : x = y).
      { destruct (proj1 (H x) (or_introl eq_refl)) as [E|Hx]; [now symmetry|].
        destruct (proj2 (H y) (or_introl eq_refl)) as [E|Hy]; trivial.
        exfalso.
        exact (String_as_OT.lt_not_eq _ _
                 (String_as_OT.lt_trans _ _ _ (Fa y Hy) (Fb x Hx)) eq_refl). }
      subst y. f_equal. apply IH; trivial.
      intro z. split; intro Hz.
      * destruct (proj1 (H z) (or_intror Hz)) as [E|K]; trivial.
        subst z. exfalso. exact (String_as_OT.lt_not_eq _ _ (Fa x Hz) eq_refl).
      * destruct (proj2 (H z) (or_intror Hz)) as [E|K]; trivial.
        subst z. exfalso. exact (String_as_OT.lt_not_eq _ _ (Fb x Hz) eq_refl).
Qed.

Lemma add_missing_conditions_known (cfg : config) (skeleton_df peak_df : list arow) :
  forall r, In r (add_missing_conditions cfg skeleton_df peak_df) ->
            In r peak_df \/ In (a_condition r) (conditions cfg).
Proof.
  unfold add_missing_conditions.
  generalize (conditions cfg). intro cs. revert peak_df.
  induction cs as [|c cs IH]; intros df r Hr; simpl in Hr; [now left|].
  apply IH in Hr. destruct Hr as [Hr|Hr]; [|right; now right].
  destruct (negb (existsb (String.eqb c) (map a_condition df))); [|now left].
  apply in_app_iff in Hr. destruct Hr as [Hr|Hr]; [now left|].
  right. left. apply in_map_iff in Hr. now destruct Hr as (s & <- & _).
Qed.

Lemma add_missing_fold_keeps (skeleton_df : list arow) (cs : list string) :
  forall df c,
    In c (map a_condition df) ->
    In c (map a_condition
            (fold_left (fun peak_df c =>
                          if negb (existsb (String.eqb c) (map a_condition peak_df))
                          then peak_df ++ map (placeholder c) skeleton_df
                          else peak_df) cs df)).
Proof.
  induction cs as [|c1 cs IH]; intros df c K; simpl; trivial.
  apply IH. destruct (negb _); trivial.
  rewrite map_app, in_app_iff. now left.
Qed.

Lemma add_missing_conditions_all (cfg : config) (skeleton_df peak_df : list arow) :
  skeleton_df <> [] ->
  forall c, In c (conditions cfg) ->
            In c (map a_condition (add_missing_conditions cfg skeleton_df peak_df)).
Proof.
  intro NE. unfold add_missing_conditions.
  generalize (conditions cfg). intro cs. revert peak_df.
  induction cs as [|c0 cs IH]; intros df c Hc; [contradiction|].
  simpl. destruct Hc as [->|Hc]; [|now apply IH].
  apply add_missing_fold_keeps.
  destruct (existsb (String.eqb c) (map a_condition df)) eqn:E; simpl.
  - apply existsb_exists in E. destruct E as (x & Hx & E).
    apply String.eqb_eq in E. now subst.
  - rewrite map_app, in_app_iff. right.
    destruct skeleton_df as [|s sk]; [congruence|]. now left.
Qed.

Lemma search_space_keys (cfg : config) (peak_df df : list arow)
      (ic : list ipath) (pc : list apath) :
  peak_df <> [] ->
  (forall r, In r peak_df -> In (a_condition r) (conditions cfg)) ->
  search_space cfg peak_df = Ok (df, ic, pc) ->
  sorted_keys (map a_condition df) = sorted_keys (conditions cfg).
Proof.
  intros NE H S.
  destruct (search_space_pool cfg peak_df df ic pc S) as (_ & _ & _ & ->).
  apply sorted_same_elements; try apply sorted_keys_sorted.
  intro c. rewrite !sorted_keys_In. split.
  - intro Hc. apply in_map_iff in Hc. destruct Hc as (r & <- & Hr).
    apply add_missing_conditions_known in Hr. destruct Hr as [Hr|Hr]; auto.
  - apply add_missing_conditions_all.
    destruct peak_df as [|r l]; [congruence | discriminate].
Qed.

Lemma align_loop_in_pool (t : Z) (ic0 : list ipath) (fuel : nat) :
  forall ic pc acc res,
    align_loop t fuel ic pc acc = Ok res ->
    incl acc ic0 -> incl ic ic0 -> incl res ic0.
Proof.
  induction fuel as [|fuel IH]; intros ic pc acc res H A I; simpl in H.
  - injection H as <-. exact A.
  - destruct (align_step t ic pc) as [|top ic' pc'|e] eqn:S.
    + injection H as <-. exact A.
    + destruct (align_step_removes t ic pc top ic' pc' S) as [Ht R].
      apply (IH ic' pc' (acc ++ [top]) res H).
      * apply incl_app; trivial. intros x [<-|[]]. now apply I.
      * intros x Hx. apply I. now apply R.
    + discriminate.
Qed.

(** X8.  When the table is not empty and its conditions are among the known
    ones, every accepted path has one slot per known condition, in sorted
    order of the condition labels, and a present slot holds the index of a
    row of the table that belongs to the condition of the slot. *)
Theorem peak_alignment_slots (cfg : config) (peak_df : list arow)
        (paths : list ipath) :
  peak_df <> [] ->
  (forall r, In r peak_df -> In (a_condition r) (conditions cfg)) ->
  peak_alignment cfg peak_df = Ok paths ->
  forall p, In p paths ->
    List.length p = List.length (sorted_keys (conditions cfg))
    /\ forall j i, nth_error p j = Some (Some i) ->
         exists rho, In rho peak_df /\ a_index rho = Some i
                     /\ nth_error (sorted_keys (conditions cfg)) j
                        = Some (a_condition rho).
Proof.
  intros NE H. unfold peak_alignment.
  destruct (search_space cfg peak_df) as [[[df ic] pc]|e] eqn:S; simpl;
    [|discriminate].
  intros L p Hp.
  assert (Hic : In p ic).
  { apply (align_loop_in_pool _ ic _ _ _ _ _ L); auto using incl_refl.
    intros x []. }
  destruct (search_space_pool cfg peak_df df ic pc S) as (P & _ & M & Edf).
  pose proof (search_space_keys cfg peak_df df ic pc NE H S) as K.
  split.
  - rewrite (Forall2_length_eq _ _ _ (meshgrid_rows_In _ _ M p Hic)).
    rewrite index_lists_of_keys, length_map. now rewrite K.
  - intros j i Hj. destruct (P p j i Hic Hj) as (k & rho & Kj & Hin & Hi & Hc).
    exists rho. repeat split; trivial.
    + rewrite Edf in Hin.
      destruct (proj2 (add_missing_conditions_rows cfg _ peak_df) rho Hin)
        as [Q|Q]; [exact Q | congruence].
    + rewrite <- K, Hc. exact Kj.
Qed.

Lemma peak_alignment_slots_witness :
  ex_two_by_two <> []
  /\ (forall r, In r ex_two_by_two -> In (a_condition r) (conditions cfg_two))
  /\ peak_alignment cfg_two ex_two_by_two
     = Ok [[Some 0; Some 2]; [Some 1; Some 3]]%nat
  /\ forall p, In p [[Some 0; Some 2]; [Some 1; Some 3]]%nat ->
       List.length p = List.length (sorted_keys (conditions cfg_two))
       /\ forall j i, nth_error p j = Some (Some i) ->
            exists rho, In rho ex_two_by_two /\ a_index rho = Some i
                        /\ nth_error (sorted_keys (conditions cfg_two)) j
                           = Some (a_condition rho).
Proof.
  assert (NE : ex_two_by_two <> []) by discriminate.
  assert (H : forall r, In r ex_two_by_two ->
                        In (a_condition r) (conditions cfg_two)).
  { intros r [<-|[<-|[<-|[<-|[]]]]]; simpl; auto. }
  assert (E : peak_alignment cfg_two ex_two_by_two
              = Ok [[Some 0; Some 2]; [Some 1; Some 3]]%nat)
    by (vm_compute; reflexivity).
  split; [exact NE|]. split; [exact H|]. split; [exact E|].
  exact (peak_alignment_slots cfg_two ex_two_by_two _ NE H E).
Defined.

(** ** From accepted paths to output rows *)

Lemma indexed_rows {A B} (mk : nat * A -> B) (index : B -> option nat)
      (data : B -> option A) (t : list A) :
  (forall ia, index (mk ia) = Some (fst ia)) ->
  (forall ia, data (mk ia) = Some (snd ia)) ->
  forall s k r,
    nth_error (map mk (combine (seq s (List.length t)) t)) k = Some r ->
    index r = Some (s + k)%nat /\ data r = nth_error t k.
Proof.
  intros Hi Hd. induction t as [|a t IH]; intros s k r H; simpl in H.
  - destruct k; discriminate.
  - destruct k as [|k]; simpl in H.
    + injection H as <-. rewrite Hi, Hd. simpl. split; [f_equal; lia | reflexivity].
    + destruct (IH (S s) k r H) as [I D]. split; [rewrite I; f_equal; lia | exact D].
Qed.

Lemma reset_index_nth (cfg : config) (t : list erow) (k : nat) (r : arow) :
  nth_error (reset_index cfg t) k = Some r ->
  a_index r = Some k /\ a_row r = nth_error t k.
Proof.
  intro H. unfold reset_index in H.
  apply (indexed_rows _ a_index a_row t) with (s := 0%nat) in H; try reflexivity.
  exact H.
Qed.

Lemma filter_by_position (l : list arow) :
  (forall k r, nth_error l k = Some r -> a_index r = Some k) ->
  forall i, filter (fun r => index_eqb (a_index r) (Some i)) l
            = match nth_error l i with Some r => [r] | None => [] end.
Proof.
  assert (G : forall (l : list arow) s,
             (forall k r, nth_error l k = Some r -> a_index r = Some (s + k)%nat) ->
             forall i, filter (fun r => index_eqb (a_index r) (Some (s + i)%nat)) l
                       = match nth_error l i with Some r => [r] | None => [] end
                       /\ forall j, (j < s)%nat ->
                            filter (fun r => index_eqb (a_index r) (Some j)) l = []).
  { clear l. induction l as [|a l IH]; intros s H i.
    - split; [destruct i; reflexivity | reflexivity].
    - assert (Ha : a_index a = Some s).
      { rewrite (H 0%nat a eq_refl). f_equal. lia. }
      assert (H' : forall k r, nth_error l k = Some r ->
                               a_index r = Some (S s + k)%nat).
      { intros k r Hk. rewrite (H (S k) r Hk). f_equal. lia. }
      split.
      + simpl. rewrite Ha. simpl. destruct i as [|i].
        * replace (s + 0)%nat with s by lia. rewrite Nat.eqb_refl.
          destruct (IH (S s) H' 0%nat) as [_ Z]. rewrite (Z s) by lia. reflexivity.
        * replace (s =? s + S i)%nat with false
            by (symmetry; apply Nat.eqb_neq; lia).
          replace (s + S i)%nat with (S s + i)%nat by lia.
          apply (IH (S s) H' i).
      + intros j Hj. simpl. rewrite Ha. simpl.
        replace (s =? j)%nat with false by (symmetry; apply Nat.eqb_neq; lia).
        destruct (IH (S s) H' 0%nat) as [_ Z]. apply Z. lia. }
  intros H i. apply (G l 0%nat H i).
Qed.

(** X9.  On a table indexed by [reset_index], [fill_values] looks every
    present entry up at its own position: the cell comes from the row at that
    position, which carries that index and the table row it was numbered
    from; a missing entry stays missing. *)
Theorem fill_values_by_position {V} (of_index : nat -> V) (nan : V)
        (cfg : config) (t : list erow) (column : arow -> V) (paths : list ipath) :
  fill_values of_index nan paths (reset_index cfg t) column
  = map (map (fun entry =>
                match entry with
                | Some i =>
                    match nth_error (reset_index cfg t) i with
                    | Some r => column r
                    | None => of_index i
                    end
                | None => nan
                end)) paths
  /\ forall i r, nth_error (reset_index cfg t) i = Some r ->
                 a_index r = Some i /\ a_row r = nth_error t i.
Proof.
  split; [|apply reset_index_nth].
  unfold fill_values. apply map_ext. intro p. apply map_ext. intros [i|]; trivial.
  unfold fill_entry.
  rewrite (filter_by_position (reset_index cfg t))
    by (intros k r Hk; apply (reset_index_nth cfg t k r Hk)).
  destruct (nth_error (reset_index cfg t) i); reflexivity.
Qed.

Lemma peak_alignment_in_pool (cfg : config) (peak_df : list arow)
      (paths : list ipath) :
  peak_alignment cfg peak_df = Ok paths ->
  forall p j i, In p paths -> nth_error p j = Some (Some i) ->
                exists rho, In rho peak_df /\ a_index rho = Some i.
Proof.
  unfold peak_alignment.
  destruct (search_space cfg peak_df) as [[[df ic] pc]|e] eqn:S; simpl;
    [|discriminate].
  intros L p j i Hp Hj.
  assert (Hic : In p ic).
  { apply (align_loop_in_pool _ ic _ _ _ _ _ L); auto using incl_refl.
    intros x []. }
  destruct (search_space_pool cfg peak_df df ic pc S) as (P & _ & _ & Edf).
  destruct (P p j i Hic Hj) as (k & rho & _ & Hin & Hi & _).
  exists rho. split; trivial. rewrite Edf in Hin.
  destruct (proj2 (add_missing_conditions_rows cfg _ peak_df) rho Hin) as [Q|Q];
    [exact Q | congruence].
Qed.

Lemma group_of_first_row (cfg : config) (input_df : list peak) (table : list erow)
      (e0 : erow) (rest : list erow) :
  ptm_matching cfg input_df = Ok (Some table) -> table = e0 :: rest ->
  exists g0, hd_error (filter (fun r => String.eqb (ptm r) "global") input_df)
             = Some g0
             /\ map (fun c => get_gcol c (e_peak e0)) (group_cols cfg)
                = map (fun c => get_gcol c g0) (group_cols cfg).
Proof.
  intros H ->. destruct (ptm_matching_table_rows cfg input_df _ H) as (A & B & _).
  destruct (filter (fun r => String.eqb (ptm r) "global") input_df) as [|g0 gs];
    [discriminate|].
  exists g0. split; [reflexivity|].
  cbn [map] in A.
  assert (A' : set_cluster (e_peak e0) None = set_cluster g0 None)
    by (change (hd g0 (set_cluster (e_peak e0) None
                       :: map (fun row => set_cluster (e_peak row) None) rest)
                = set_cluster g0 None); rewrite A; reflexivity).
  clear A. rename A' into A.
  destruct (in_group_cols cfg Cluster) eqn:C.
  - specialize (B eq_refl). simpl in B. injection B as B _. now rewrite B.
  - apply map_ext_in. intros c Hc.
    pose proof (not_in_group_cols cfg c C Hc) as NC.
    transitivity (get_gcol c (set_cluster (e_peak e0) None)).
    + symmetry. now apply get_gcol_set_cluster.
    + rewrite A. now apply get_gcol_set_cluster.
Qed.

(** X10.  Every output row of a group carries, in its group columns, the
    identity of the first global peak of the group; each of its slots is
    either missing or filled from a row of the matcher's table, never left as
    a bare index. *)
Theorem matching_i_tracks (cfg : config) (input_df : list peak)
        (tracks : list track) :
  matching_i cfg input_df = Ok (Some tracks) ->
  exists g0 table,
    hd_error (filter (fun r => String.eqb (ptm r) "global") input_df) = Some g0
    /\ ptm_matching cfg input_df = Ok (Some table)
    /\ forall tr, In tr tracks ->
         t_group tr = map (fun c => get_gcol c g0) (group_cols cfg)
         /\ forall s, In s (t_slots tr) ->
              s = Missing
              \/ exists r e, s = Filled r /\ a_row r = Some e /\ In e table.
Proof.
  unfold matching_i.
  destruct (ptm_matching cfg input_df) as [[table|]|e] eqn:P; simpl;
    try discriminate.
  unfold condition_matching.
  destruct (peak_alignment cfg (reset_index cfg table)) as [paths|e] eqn:A; simpl;
    [|discriminate].
  destruct table as [|e0 rest] eqn:T.
  { exfalso. destruct (ptm_matching_table_rows cfg input_df _ P) as (R & _ & _).
    revert P. unfold ptm_matching.
    destruct (filter (fun r => String.eqb (ptm r) "global") input_df);
      [discriminate | discriminate]. }
  rewrite <- T in *.
  destruct (group_of_first_row cfg input_df table e0 rest P T) as (g0 & Hg & G).
  intro H. exists g0, table. split; [exact Hg|]. split; [reflexivity|].
  assert (Tr : tracks
               = map (mkTrack (map (fun c => get_gcol c (e_peak e0)) (group_cols cfg)))
                     (fill_values RawIndex Missing paths (reset_index cfg table)
                                  Filled)).
  { rewrite T in H. simpl in H. rewrite T.
    destruct (group_cols cfg); simpl in H; injection H as <-; reflexivity. }
  intros tr Htr. rewrite Tr in Htr. apply in_map_iff in Htr.
  destruct Htr as (slots & <- & Hs). simpl. split; [exact G|].
  intros s Hin. unfold fill_values in Hs. apply in_map_iff in Hs.
  destruct Hs as (p & <- & Hp). apply in_map_iff in Hin.
  destruct Hin as (entry & <- & He).
  destruct entry as [i|]; [right | now left].
  apply In_nth_error in He. destruct He as (j & Hj).
  destruct (peak_alignment_in_pool cfg _ paths A p j i Hp Hj) as (rho & Hrho & Hi).
  apply In_nth_error in Hrho. destruct Hrho as (k & Hk).
  destruct (reset_index_nth cfg table k rho Hk) as [Ik _].
  assert (k = i) by congruence. subst k.
  unfold fill_entry.
  rewrite (filter_by_position (reset_index cfg table))
    by (intros k r Hr; apply (reset_index_nth cfg table k r Hr)).
  rewrite Hk. destruct (reset_index_nth cfg table i rho Hk) as [_ D].
  destruct (nth_error table i) as [e|] eqn:N.
  - exists rho, e. repeat split; trivial. now apply nth_error_In in N.
  - exfalso. apply nth_error_None in N.
    assert (L : (i < List.length (reset_index cfg table))%nat)
      by (apply nth_error_Some; congruence).
    unfold reset_index in L. rewrite length_map, length_combine, length_seq in L.
    lia.
Qed.

Lemma matching_i_tracks_witness :
  exists tracks,
    matching_i cfg_phospho ex_same_apex = Ok (Some tracks)
    /\ exists g0 table,
         hd_error (filter (fun r => String.eqb (ptm r) "global") ex_same_apex)
         = Some g0
         /\ ptm_matching cfg_phospho ex_same_apex = Ok (Some table)
         /\ forall tr, In tr tracks ->
              t_group tr = map (fun c => get_gcol c g0) (group_cols cfg_phospho)
              /\ forall s, In s (t_slots tr) ->
                   s = Missing
                   \/ exists r e, s = Filled r /\ a_row r = Some e /\ In e table.
Proof.
  assert (E : exists tracks,
             matching_i cfg_phospho ex_same_apex = Ok (Some tracks))
    by (vm_compute; eexists; reflexivity).
  destruct E as [tracks E]. exists tracks. split; [exact E|].
  exact (matching_i_tracks cfg_phospho ex_same_apex tracks E).
Defined.

(** ** Global peaks with a missing key cell *)

Lemma groupby_agg_keys (cfg : config) (rows : list summary_row) (s : summary) :
  In s (groupby_agg cfg rows) -> key_has_nan cfg (g_key s) = false.
Proof.
  unfold groupby_agg. intro H. apply in_map_iff in H.
  destruct H as (k & <- & Hk). simpl.
  apply drop_duplicates_incl in Hk. apply in_map_iff in Hk.
  destruct Hk as (r & <- & Hr). apply filter_In in Hr.
  destruct Hr as [_ Hr]. now apply negb_true_iff in Hr.
Qed.

(** The summary has no row for a global peak with a missing key cell. *)
Lemma nan_key_unmatched (cfg : config) (global_df : list peak)
      (rows : list summary_row) (g : peak) (os : option summary) :
  key_has_nan cfg g = true ->
  In (g, os) (merge_left (fun g s => akey_eqb cfg g (g_key s)) global_df
                         (groupby_agg cfg rows)) ->
  os = None.
Proof.
  intros N H. apply merge_left_In in H. destruct H as [_ H].
  destruct os as [s|]; [|reflexivity].
  destruct H as [Hs E]. apply key_has_nan_class in E.
  rewrite (groupby_agg_keys cfg rows s Hs) in E. congruence.
Qed.

Lemma mapM_raise {A B} (f : A -> result B) (l : list A) (e : exn) :
  (forall x e', In x l -> f x = Raise e' -> e' = e) ->
  (exists x, In x l /\ f x = Raise e) ->
  mapM f l = Raise e.
Proof.
  induction l as [|a l IH]; intros U (x & Hx & Fx); [contradiction|].
  simpl. destruct (f a) as [b|e'] eqn:Fa; simpl.
  - destruct Hx as [->|Hx]; [congruence|].
    rewrite IH; [reflexivity | | now exists x].
    intros y e'' Hy. apply U. now right.
  - f_equal. apply (U a e'); [now left | exact Fa].
Qed.

Lemma channel_table_nan_key (cfg : config) (global_df : list peak) (ch : string)
      (rows : list peak) (g : peak) :
  in_group_cols cfg Cluster = false ->
  In g global_df -> key_has_nan cfg g = true ->
  channel_table cfg global_df ch rows = Raise TypeError.
Proof.
  intros C Hg N. unfold channel_table. rewrite C.
  apply mapM_raise.
  - intros [g' [s|]] e' _ H; simpl in H; [discriminate | congruence].
  - destruct (merge_left_covers (fun g s => akey_eqb cfg g (g_key s)) global_df
                (groupby_agg cfg
                   (summary_rows
                      (map (fun gp => mkMerged (fst gp) (snd gp))
                           (merge_left (key_eqb cfg) global_df rows))
                      (ptm_eval
                         (map (fun gp => mkMerged (fst gp) (snd gp))
                              (merge_left (key_eqb cfg) global_df rows))
                         (b64_of_Z (threshold cfg)))))
                g Hg) as (os & Hos).
    exists (g, os). split; [exact Hos|].
    rewrite (nan_key_unmatched cfg global_df _ g os N Hos). reflexivity.
Qed.

Lemma channel_fold_raise (cfg : config) (global_df : list peak)
      (groups : list (string * list peak)) (e : exn) :
  fold_left (fun acc grp =>
               _ <- acc ;;
               t <- channel_table cfg global_df (fst grp) (snd grp) ;;
               Ok (Some t)) groups (Raise e) = Raise e.
Proof. induction groups as [|grp groups IH]; simpl; trivial. Qed.

Lemma add_missing_ptms_fold_keeps (cfg : config) (skeleton_df : list peak)
      (ps : list string) :
  forall ptm_df,
    ptm_df <> [] ->
    fold_left (fun ptm_df p =>
                 if negb (existsb (String.eqb p) (map ptm ptm_df))
                    && negb (String.eqb p "global")
                 then ptm_df ++ map (skeleton_row cfg p) skeleton_df
                 else ptm_df) ps ptm_df <> [].
Proof.
  induction ps as [|p ps IH]; intros df NE; simpl; trivial.
  apply IH. destruct (_ && _); trivial.
  destruct df; [congruence | discriminate].
Qed.

Lemma add_missing_ptms_nonempty (cfg : config) (skeleton_df ptm_df : list peak)
      (p : string) :
  skeleton_df <> [] -> In p (ptms cfg) -> p <> "global" ->
  add_missing_ptms cfg skeleton_df ptm_df <> [].
Proof.
  intros NE Hp G. unfold add_missing_ptms. revert ptm_df Hp.
  generalize (ptms cfg). intro ps.
  induction ps as [|c ps IH]; intros df Hp; [contradiction|].
  simpl. destruct Hp as [->|Hp]; [|now apply IH].
  apply add_missing_ptms_fold_keeps.
  destruct (existsb (String.eqb p) (map ptm df)) eqn:E; simpl.
  - apply existsb_exists in E. destruct E as (x & Hx & _).
    destruct df; [contradiction | discriminate].
  - apply String.eqb_neq in G. rewrite G. simpl.
    destruct skeleton_df; [congruence|]. destruct df; discriminate.
Qed.

(** X12.  When [cluster] is not a group column and the data set has a PTM
    channel, one global peak with a missing group column or apex makes
    [ptm_matching] fail with a TypeError for the whole group: the summary has
    no row for that peak, and the join of its cluster refuses the missing
    cell. *)
Theorem missing_key_raises (cfg : config) (input_df : list peak) (g : peak)
        (p : string) :
  in_group_cols cfg Cluster = false ->
  In p (ptms cfg) -> p <> "global" ->
  In g input_df -> ptm g = "global" -> key_has_nan cfg g = true ->
  ptm_matching cfg input_df = Raise TypeError.
Proof.
  intros C Hp Gp Hg Gg N. unfold ptm_matching.
  set (global_df := filter (fun r => String.eqb (ptm r) "global") input_df).
  assert (Ig : In g global_df).
  { apply filter_In. split; trivial. rewrite Gg. reflexivity. }
  destruct (List.length global_df =? 0)%nat eqn:L.
  { apply Nat.eqb_eq in L. destruct global_df; [contradiction | discriminate]. }
  set (ptm_df := add_missing_ptms cfg _ _).
  assert (NE : ptm_df <> []).
  { apply (add_missing_ptms_nonempty cfg _ _ p); trivial.
    destruct input_df as [|r l]; [contradiction | discriminate]. }
  unfold groupby.
  destruct (sorted_keys (map ptm ptm_df)) as [|k ks] eqn:K.
  { exfalso. destruct ptm_df as [|r l]; [congruence|].
    simpl in K. exact (insert_key_nonempty _ _ K). }
  cbn [map fold_left]. cbn [bind fst snd].
  rewrite (channel_table_nan_key cfg global_df k _ g C Ig N).
  cbn [bind]. rewrite channel_fold_raise. reflexivity.
Qed.

Lemma missing_key_raises_witness :
  in_group_cols cfg_no_cluster Cluster = false
  /\ In "phospho" (ptms cfg_no_cluster) /\ "phospho" <> "global"
  /\ key_has_nan cfg_no_cluster (hd (peak_at "" "" 0 0 0) ex_no_genes) = true
  /\ ptm_matching cfg_no_cluster ex_no_genes = Raise TypeError.
Proof.
  assert (C : in_group_cols cfg_no_cluster Cluster = false) by reflexivity.
  assert (P : In "phospho" (ptms cfg_no_cluster)) by (simpl; auto).
  assert (G : "phospho" <> "global") by discriminate.
  assert (N : key_has_nan cfg_no_cluster (hd (peak_at "" "" 0 0 0) ex_no_genes)
              = true) by reflexivity.
  split; [exact C|]. split; [exact P|]. split; [exact G|]. split; [exact N|].
  apply (missing_key_raises cfg_no_cluster ex_no_genes
                            (hd (peak_at "" "" 0 0 0) ex_no_genes) "phospho");
    trivial.
  - simpl. auto.
Defined.

(** X13.  When [cluster] is a group column, a global peak with a missing
    group column or apex keeps its row, but its match count and matched ids
    are missing values, whatever the channel holds. *)
Theorem missing_key_cells (cfg : config) (input_df : list peak)
        (table : list erow) :
  in_group_cols cfg Cluster = true ->
  ptm_matching cfg input_df = Ok (Some table) ->
  forall row, In row table -> key_has_nan cfg (e_peak row) = true ->
    exists ch, ch <> "global"
               /\ e_extra row = [(ch, NaN); ("peak_id_ptm", NaN)].
Proof.
  intros C. unfold ptm_matching.
  set (global_df := filter (fun r => String.eqb (ptm r) "global") input_df).
  set (ptm_df := add_missing_ptms cfg _ _).
  destruct (List.length global_df =? 0)%nat; [discriminate|].
  intro H.
  destruct (fold_left _ (groupby ptm ptm_df) (Ok None)) as [[t|]|e] eqn:F;
    simpl in H; try discriminate.
  injection H as <-.
  apply channel_fold_last in F. destruct F as [F|(grp & Hgrp & F)]; [discriminate|].
  intros row Hrow N. exists (fst grp). split.
  - apply groupby_In in Hgrp. destruct Hgrp as [_ Hgrp].
    apply in_map_iff in Hgrp. destruct Hgrp as (r & E & Hr).
    rewrite <- E. apply add_missing_ptms_rows in Hr.
    destruct Hr as [Hr|[_ Hr]]; [|exact Hr].
    apply filter_In in Hr. destruct Hr as [_ Hr]. apply negb_true_iff in Hr.
    now apply String.eqb_neq.
  - unfold channel_table in F. rewrite C in F. injection F as <-.
    apply in_map_iff in Hrow. destruct Hrow as ([g' os] & <- & Hin).
    destruct os as [s|]; simpl in *.
    + pose proof (nan_key_unmatched cfg global_df _ g' (Some s) N Hin).
      discriminate.
    + reflexivity.
Qed.

Lemma missing_key_cells_witness :
  in_group_cols cfg_phospho Cluster = true
  /\ ptm_matching cfg_phospho ex_no_genes
     = Ok (Some [mkErow (hd (peak_at "" "" 0 0 0) ex_no_genes) 1
                        [("phospho", NaN); ("peak_id_ptm", NaN)]])
  /\ key_has_nan cfg_phospho (hd (peak_at "" "" 0 0 0) ex_no_genes) = true
  /\ exists ch, ch <> "global"
                /\ [("phospho", NaN); ("peak_id_ptm", NaN)]
                   = [(ch, NaN); ("peak_id_ptm", NaN)].
Proof.
  assert (C : in_group_cols cfg_phospho Cluster = true) by reflexivity.
  assert (E : ptm_matching cfg_phospho ex_no_genes
              = Ok (Some [mkErow (hd (peak_at "" "" 0 0 0) ex_no_genes) 1
                                 [("phospho", NaN); ("peak_id_ptm", NaN)]]))
    by (vm_compute; reflexivity).
  assert (N : key_has_nan cfg_phospho (hd (peak_at "" "" 0 0 0) ex_no_genes) = true)
    by reflexivity.
  split; [exact C|]. split; [exact E|]. split; [exact N|].
  exact (missing_key_cells cfg_phospho ex_no_genes _ C E
           (mkErow (hd (peak_at "" "" 0 0 0) ex_no_genes) 1
                   [("phospho", NaN); ("peak_id_ptm", NaN)])
           (or_introl eq_refl) N).
Defined.

(** ** Every global peak of a group, in one output row *)

Lemma nth_error_combine_seq {A} (t : list A) :
  forall s j,
    nth_error (combine (seq s (List.length t)) t) j
    = option_map (fun e => ((s + j)%nat, e)) (nth_error t j).
Proof.
  induction t as [|a t IH]; intros s j; simpl.
  - destruct j; reflexivity.
  - destruct j as [|j]; simpl.
    + now rewrite Nat.add_0_r.
    + rewrite IH. now rewrite Nat.add_succ_r.
Qed.

Lemma reset_index_row (cfg : config) (t : list erow) (k : nat) :
  nth_error (reset_index cfg t) k
  = option_map (fun e =>
                  mkArow (Some k)
                         (map (fun c => get_gcol c (e_peak e)) (group_cols cfg))
                         (condition (e_peak e)) (peak_apex (e_peak e)) (Some e))
               (nth_error t k).
Proof.
  unfold reset_index. rewrite nth_error_map, nth_error_combine_seq.
  destruct (nth_error t k); reflexivity.
Qed.

Lemma reset_index_In (cfg : config) (t : list erow) (r : arow) :
  In r (reset_index cfg t) ->
  exists k e, nth_error t k = Some e /\ a_index r = Some k
              /\ a_condition r = condition (e_peak e)
              /\ a_peak_apex r = peak_apex (e_peak e)
              /\ nth_error (reset_index cfg t) k = Some r.
Proof.
  intro H. apply In_nth_error in H. destruct H as (k & Hk).
  pose proof Hk as Hk'. rewrite reset_index_row in Hk.
  destruct (nth_error t k) as [e|] eqn:E; simpl in Hk; [|discriminate].
  injection Hk as <-. exists k, e. repeat split; trivial.
Qed.

Lemma matching_i_inv (cfg : config) (input_df : list peak) (tracks : list track) :
  matching_i cfg input_df = Ok (Some tracks) ->
  exists table paths grp,
    ptm_matching cfg input_df = Ok (Some table)
    /\ peak_alignment cfg (reset_index cfg table) = Ok paths
    /\ tracks = map (mkTrack grp)
                    (fill_values RawIndex Missing paths (reset_index cfg table)
                                 Filled).
Proof.
  unfold matching_i.
  destruct (ptm_matching cfg input_df) as [[table|]|e]; simpl; try discriminate.
  unfold condition_matching.
  destruct (peak_alignment cfg (reset_index cfg table)) as [paths|e] eqn:A; simpl;
    [|discriminate].
  intro H. exists table, paths.
  assert (G : exists grp,
             tracks = map (mkTrack grp)
                          (fill_values RawIndex Missing paths
                                       (reset_index cfg table) Filled)).
  { destruct (group_cols cfg), (reset_index cfg table); simpl in H;
      try discriminate; injection H as <-; eexists; reflexivity. }
  destruct G as (grp & ->). exists grp. repeat split. exact A.
Qed.

Lemma column_position (j i : nat) (paths : list ipath) :
  NoDup (column j paths) ->
  forall n1 n2 p1 p2,
    nth_error paths n1 = Some p1 -> nth_error paths n2 = Some p2 ->
    nth_error p1 j = Some (Some i) -> nth_error p2 j = Some (Some i) ->
    n1 = n2.
Proof.
  induction paths as [|p rest IH]; intros ND n1 n2 p1 p2 H1 H2 E1 E2.
  - destruct n1; discriminate.
  - change (p :: rest) with ([p] ++ rest) in ND. rewrite column_app in ND.
    assert (C : column j [p]
                = match nth_error p j with Some (Some x) => [x] | _ => [] end).
    { unfold column. simpl. apply app_nil_r. }
    rewrite C in ND.
    destruct n1 as [|n1], n2 as [|n2]; simpl in H1, H2; trivial.
    + exfalso. injection H1 as ->. unfold ipath in *. rewrite E1 in ND.
      inversion ND as [|? ? N _]; subst. apply N.
      apply column_In. exists p2. split; [now apply nth_error_In in H2 | exact E2].
    + exfalso. injection H2 as ->. unfold ipath in *. rewrite E2 in ND.
      inversion ND as [|? ? N _]; subst. apply N.
      apply column_In. exists p1. split; [now apply nth_error_In in H1 | exact E1].
    + f_equal. apply (IH (NoDup_app_remove_l _ _ ND) n1 n2 p1 p2); trivial.
Qed.

Lemma filled_entry (cfg : config) (t : list erow) (p : ipath) (r : arow) :
  In (Filled r) (map (fill_entry RawIndex Missing (reset_index cfg t) Filled) p) ->
  exists i, In (Some i) p /\ nth_error (reset_index cfg t) i = Some r.
Proof.
  intro H. apply in_map_iff in H. destruct H as ([i|] & E & Hin); [|discriminate].
  exists i. split; [exact Hin|].
  unfold fill_entry in E.
  rewrite (filter_by_position (reset_index cfg t)) in E
    by (intros k r' Hr; apply (reset_index_nth cfg t k r' Hr)).
  destruct (nth_error (reset_index cfg t) i); [congruence | discriminate].
Qed.

(** The slot of an index in a path returned for a numbered table. *)
Lemma slot_of_index (cfg : config) (t : list erow) (paths : list ipath) :
  peak_alignment cfg (reset_index cfg t) = Ok paths ->
  forall p1 p2 i j1 j2,
    In p1 paths -> In p2 paths ->
    nth_error p1 j1 = Some (Some i) -> nth_error p2 j2 = Some (Some i) ->
    j1 = j2.
Proof.
  unfold peak_alignment.
  destruct (search_space cfg (reset_index cfg t)) as [[[df ic] pc]|e] eqn:S; simpl;
    [|discriminate].
  intros L p1 p2 i j1 j2 H1 H2 E1 E2.
  assert (I : incl paths ic).
  { apply (align_loop_in_pool _ ic _ _ _ _ _ L); auto using incl_refl.
    intros x []. }
  destruct (search_space_pool cfg _ df ic pc S) as (P & _ & _ & Edf).
  assert (C : forall p j, In p paths -> nth_error p j = Some (Some i) ->
                forall e, nth_error t i = Some e ->
                          nth_error (sorted_keys (map a_condition df)) j
                          = Some (condition (e_peak e))).
  { intros p j Hp Hj e He.
    destruct (P p j i (I p Hp) Hj) as (k & rho & Kj & Hin & Hi & Hc).
    rewrite Edf in Hin.
    destruct (proj2 (add_missing_conditions_rows cfg _ _) rho Hin) as [Q|Q];
      [|congruence].
    destruct (reset_index_In cfg t rho Q) as (k' & e' & N & I' & C' & _).
    assert (k' = i) by congruence. subst k'.
    assert (e' = e) by congruence. subst e'. congruence. }
  destruct (P p1 j1 i (I p1 H1) E1) as (k & rho & _ & Hin & Hi & _).
  rewrite Edf in Hin.
  destruct (proj2 (add_missing_conditions_rows cfg _ _) rho Hin) as [Q|Q];
    [|congruence].
  destruct (reset_index_In cfg t rho Q) as (k' & e & N & I' & _).
  assert (k' = i) by congruence. subst k'.
  pose proof (C p1 j1 H1 E1 e N) as K1. pose proof (C p2 j2 H2 E2 e N) as K2.
  pose proof (sorted_keys_NoDup (map a_condition df)) as ND.
  rewrite NoDup_nth_error in ND. apply ND; [|congruence].
  apply nth_error_Some. congruence.
Qed.

(** X15.  No global peak appears in two output rows of its group: two output
    rows that hold the same filled row in one of their slots are the same
    row. *)
Theorem global_peaks_in_one_track (cfg : config) (input_df : list peak)
        (tracks : list track) :
  matching_i cfg input_df = Ok (Some tracks) ->
  forall n1 n2 tr1 tr2 r,
    nth_error tracks n1 = Some tr1 -> nth_error tracks n2 = Some tr2 ->
    In (Filled r) (t_slots tr1) -> In (Filled r) (t_slots tr2) -> n1 = n2.
Proof.
  intro H. destruct (matching_i_inv cfg input_df tracks H)
    as (table & paths & grp & P & A & ->).
  unfold fill_values.
  intros n1 n2 tr1 tr2 r H1 H2 F1 F2.
  rewrite nth_error_map, nth_error_map in H1, H2. unfold ipath in *.
  destruct (nth_error paths n1) as [p1|] eqn:N1; simpl in H1; [|discriminate].
  destruct (nth_error paths n2) as [p2|] eqn:N2; simpl in H2; [|discriminate].
  injection H1 as <-. injection H2 as <-. simpl in F1, F2.
  destruct (filled_entry cfg table p1 r F1) as (i1 & I1 & R1).
  destruct (filled_entry cfg table p2 r F2) as (i2 & I2 & R2).
  destruct (reset_index_nth cfg table i1 r R1) as [X1 _].
  destruct (reset_index_nth cfg table i2 r R2) as [X2 _].
  assert (i2 = i1) by congruence. subst i2.
  apply In_nth_error in I1, I2.
  destruct I1 as (j1 & J1). destruct I2 as (j2 & J2).
  pose proof (nth_error_In _ _ N1) as M1. pose proof (nth_error_In _ _ N2) as M2.
  assert (j1 = j2) by exact (slot_of_index cfg table paths A p1 p2 i1 j1 j2
                                             M1 M2 J1 J2).
  subst j2.
  assert (ND : NoDup (column j1 paths)).
  { revert A. unfold peak_alignment.
    destruct (search_space cfg (reset_index cfg table)) as [s|e]; simpl;
      [|discriminate].
    intro L. eapply align_loop_tracks_apart; [|exact L]. split.
    - intro j. constructor.
    - intros j i r0 []. }
  exact (column_position j1 i1 paths ND n1 n2 p1 p2 N1 N2 J1 J2).
Qed.

Lemma global_peaks_in_one_track_witness :
  exists tracks,
    matching_i cfg_ab ex_two_conditions = Ok (Some tracks)
    /\ List.length tracks = 2%nat
    /\ forall n1 n2 tr1 tr2 r,
         nth_error tracks n1 = Some tr1 -> nth_error tracks n2 = Some tr2 ->
         In (Filled r) (t_slots tr1) -> In (Filled r) (t_slots tr2) -> n1 = n2.
Proof.
  assert (E : exists tracks,
             matching_i cfg_ab ex_two_conditions = Ok (Some tracks)
             /\ List.length tracks = 2%nat)
    by (vm_compute; eexists; split; reflexivity).
  destruct E as (tracks & E & L). exists tracks.
  split; [exact E|]. split; [exact L|].
  exact (global_peaks_in_one_track cfg_ab ex_two_conditions tracks E).
Defined.

(** ** The comparison groups of the manager *)

Lemma filter_split_Permutation {A} (f : A -> bool) (l : list A) :
  Permutation (filter f l ++ filter (fun x => negb (f x)) l) l.
Proof.
  induction l as [|a l IH]; simpl; [constructor|].
  destruct (f a); simpl.
  - now constructor.
  - apply Permutation_sym. apply Permutation_cons_app. now apply Permutation_sym.
Qed.

Lemma flat_map_ext_on {A B} (f g : A -> list B) (l : list A) :
  (forall x, In x l -> f x = g x) -> flat_map f l = flat_map g l.
Proof.
  induction l as [|a l IH]; intro H; simpl; trivial.
  rewrite (H a (or_introl eq_refl)), IH; trivial.
  intros x Hx. apply H. now right.
Qed.

Lemma groups_Permutation {A} (key : A -> string) (keys : list string) :
  NoDup keys ->
  forall df, (forall r, In r df -> In (key r) keys) ->
    Permutation (flat_map (fun k => filter (fun r => String.eqb (key r) k) df) keys)
                df.
Proof.
  induction 1 as [|k ks Nk ND IH]; intros df H.
  - destruct df as [|r df]; [constructor|]. exfalso. exact (H r (or_introl eq_refl)).
  - cbn [flat_map].
    set (rest := filter (fun r => negb (String.eqb (key r) k)) df).
    assert (E : flat_map (fun k' => filter (fun r => String.eqb (key r) k') df) ks
                = flat_map (fun k' => filter (fun r => String.eqb (key r) k') rest) ks).
    { apply flat_map_ext_on. intros k' Hk'. unfold rest. rewrite filter_filter.
      apply filter_ext. intro r.
      destruct (String.eqb (key r) k') eqn:E1;
        destruct (String.eqb (key r) k) eqn:E2; simpl; trivial.
      apply String.eqb_eq in E1, E2. exfalso. apply Nk. congruence. }
    rewrite E.
    eapply Permutation_trans; [|apply (filter_split_Permutation
                                         (fun r => String.eqb (key r) k) df)].
    apply Permutation_app_head. apply IH.
    intros r Hr. unfold rest in Hr. apply filter_In in Hr. destruct Hr as [Hr N].
    destruct (H r Hr) as [K|K]; trivial.
    rewrite <- K, String.eqb_refl in N. discriminate.
Qed.

Lemma groupby_concat {A} (key : A -> string) (df : list A) :
  Permutation (List.concat (map snd (groupby key df))) df.
Proof.
  unfold groupby. rewrite map_map. cbn [snd]. rewrite <- flat_map_concat_map.
  apply groups_Permutation; [apply sorted_keys_NoDup|].
  intros r Hr. apply sorted_keys_In. now apply in_map.
Qed.

Lemma groupby_nth {A} (key : A -> string) (df : list A) (n : nat) (g : list A) :
  nth_error (map snd (groupby key df)) n = Some g ->
  exists k, nth_error (sorted_keys (map key df)) n = Some k
            /\ g = filter (fun r => String.eqb (key r) k) df.
Proof.
  unfold groupby. rewrite map_map, nth_error_map. cbn [snd].
  destruct (nth_error (sorted_keys (map key df)) n) as [k|]; simpl; [|discriminate].
  intro H. injection H as <-. now exists k.
Qed.

Lemma manager_groups (peak_table : list peak) :
  peak_table <> [] ->
  let m := manager_init peak_table in
  Permutation (List.concat (m_match_df_list m)) (m_peak_table m)
  /\ (forall g, In g (m_match_df_list m) -> g <> [])
  /\ (forall n1 n2 g1 g2 r1 r2,
         nth_error (m_match_df_list m) n1 = Some g1 ->
         nth_error (m_match_df_list m) n2 = Some g2 ->
         In r1 g1 -> In r2 g2 ->
         (match_id r1 = match_id r2 <-> n1 = n2))
  /\ (forall r, In r (m_peak_table m) -> match_id r <> None)
  /\ map (fun p => set_match_id p None) (m_peak_table m)
     = map (fun p => set_match_id p None) peak_table.
Proof.
  intros _ m. unfold m, manager_init.
  set (cc := if existsb _ _ then _ else _).
  set (t := map (fun p => set_match_id p (Some (joined_id cc p))) peak_table).
  cbn [m_match_df_list m_peak_table].
  assert (Id : forall r, In r t -> match_id r = Some (py_str (match_id r))).
  { intros r Hr. unfold t in Hr. apply in_map_iff in Hr.
    destruct Hr as (p & <- & _). reflexivity. }
  split; [apply groupby_concat|]. split; [|split; [|split]].
  - intros g Hg. apply In_nth_error in Hg. destruct Hg as (n & Hn).
    apply groupby_nth in Hn. destruct Hn as (k & Hk & ->).
    apply nth_error_In in Hk. apply (proj1 (sorted_keys_In _ _)) in Hk.
    apply in_map_iff in Hk. destruct Hk as (r & E & Hr).
    intro F.
    assert (K : In r (filter (fun r0 => String.eqb (py_str (match_id r0)) k) t)).
    { apply filter_In. split; trivial. rewrite E. apply String.eqb_refl. }
    rewrite F in K. exact K.
  - intros n1 n2 g1 g2 r1 r2 H1 H2 I1 I2.
    apply groupby_nth in H1, H2.
    destruct H1 as (k1 & K1 & ->). destruct H2 as (k2 & K2 & ->).
    apply filter_In in I1, I2. destruct I1 as [I1 E1]. destruct I2 as [I2 E2].
    apply String.eqb_eq in E1, E2.
    pose proof (sorted_keys_NoDup (map (fun p => py_str (match_id p)) t)) as ND.
    rewrite NoDup_nth_error in ND. split.
    + intro E. apply ND; [apply nth_error_Some; congruence|].
      rewrite K1, K2. f_equal. rewrite <- E1, <- E2. now rewrite E.
    + intros ->. rewrite (Id r1 I1), (Id r2 I2). congruence.
  - intros r Hr. rewrite (Id r Hr). discriminate.
  - unfold t. rewrite map_map. reflexivity.
Qed.

(** X18.  The comparison groups of the manager split the peak table: put
    together they hold every row of the table exactly once, no group is
    empty, two rows are in the same group exactly when they have the same
    [match_id], and no row has a missing [match_id]; apart from [match_id]
    the rows are those that were read. *)
Theorem manager_groups_partition (peak_table : list peak) :
  peak_table <> [] ->
  let m := manager_init peak_table in
  Permutation (List.concat (m_match_df_list m)) (m_peak_table m)
  /\ (forall g, In g (m_match_df_list m) -> g <> [])
  /\ (forall n1 n2 g1 g2 r1 r2,
         nth_error (m_match_df_list m) n1 = Some g1 ->
         nth_error (m_match_df_list m) n2 = Some g2 ->
         In r1 g1 -> In r2 g2 ->
         (match_id r1 = match_id r2 <-> n1 = n2))
  /\ (forall r, In r (m_peak_table m) -> match_id r <> None)
  /\ map (fun p => set_match_id p None) (m_peak_table m)
     = map (fun p => set_match_id p None) peak_table.
Proof. apply manager_groups. Qed.

Lemma manager_groups_partition_witness :
  ex_peak_table <> []
  /\ Permutation (List.concat (m_match_df_list (manager_init ex_peak_table)))
                 (m_peak_table (manager_init ex_peak_table))
  /\ List.length (m_match_df_list (manager_init ex_peak_table)) = 3%nat.
Proof.
  assert (NE : ex_peak_table <> []) by discriminate.
  split; [exact NE|]. split.
  - exact (proj1 (manager_groups_partition ex_peak_table NE)).
  - reflexivity.
Defined.

(** ** [main] on a data set without PTM channel *)

Lemma ptm_matching_unbound (cfg : config) (input_df : list peak) :
  input_df <> [] ->
  (forall r, In r input_df -> ptm r = "global") ->
  (forall p, In p (ptms cfg) -> p = "global") ->
  ptm_matching cfg input_df = Raise UnboundLocalError.
Proof.
  intros NE G P. unfold ptm_matching.
  rewrite (filter_all (fun r => String.eqb (ptm r) "global") input_df)
    by (intros x Hx; now rewrite (G x Hx)).
  rewrite (filter_nothing (fun r => negb (String.eqb (ptm r) "global")) input_df)
    by (intros x Hx; now rewrite (G x Hx)).
  rewrite add_missing_ptms_only_global by exact P.
  destruct input_df as [|r l]; [congruence|]. reflexivity.
Qed.

Lemma manager_rows (peak_table : list peak) (g : list peak) (r : peak) :
  In g (m_match_df_list (manager_init peak_table)) -> In r g ->
  exists r0, In r0 peak_table /\ ptm r = ptm r0.
Proof.
  unfold manager_init. cbn [m_match_df_list]. intros Hg Hr.
  apply in_map_iff in Hg. destruct Hg as (grp & <- & Hg).
  apply groupby_In in Hg. destruct Hg as [E _]. rewrite E in Hr.
  apply filter_In in Hr. destruct Hr as [Hr _].
  apply in_map_iff in Hr. destruct Hr as (r0 & <- & Hr0).
  now exists r0.
Qed.

(** X19.  On a peak table with at least one row, all of them tagged
    'global', [main] stops on the unbound result of [ptm_matching]: a data
    set without PTM channel cannot be aligned. *)
Theorem main_needs_a_channel (peak_table : list peak) (cutoff : Z) :
  peak_table <> [] ->
  (forall r, In r peak_table -> ptm r = "global") ->
  main_table peak_table cutoff = Raise UnboundLocalError.
Proof.
  intros NE G. unfold main_table, clustered_table.
  set (m := manager_init peak_table). set (cfg := globals_of m cutoff).
  assert (Pt : ptms cfg = drop_duplicates String.eqb (map ptm peak_table))
    by reflexivity.
  destruct (manager_groups peak_table NE) as (Perm & NEg & _).
  fold m in Perm, NEg.
  assert (U : forall g, In g (m_match_df_list m) ->
                        matching_i cfg g = Raise UnboundLocalError).
  { intros g Hg. unfold matching_i.
    rewrite (ptm_matching_unbound cfg g); trivial.
    - now apply NEg.
    - intros r Hr. destruct (manager_rows peak_table g r Hg Hr) as (r0 & H0 & ->).
      now apply G.
    - intros p Hp. rewrite Pt in Hp. apply drop_duplicates_incl in Hp.
      apply in_map_iff in Hp. destruct Hp as (r0 & <- & H0). now apply G. }
  destruct (m_match_df_list m) as [|g gs] eqn:L.
  - exfalso. simpl in Perm. apply Permutation_nil in Perm.
    unfold m, manager_init in Perm. cbn [m_peak_table] in Perm.
    destruct peak_table; [congruence | discriminate].
  - simpl. rewrite (U g (or_introl eq_refl)). reflexivity.
Qed.

Lemma main_needs_a_channel_witness :
  [peak_at "global" "g1" 20 18 22] <> []
  /\ (forall r, In r [peak_at "global" "g1" 20 18 22] -> ptm r = "global")
  /\ main_table [peak_at "global" "g1" 20 18 22] 3 = Raise UnboundLocalError.
Proof.
  assert (NE : [peak_at "global" "g1" 20 18 22] <> []) by discriminate.
  assert (G : forall r, In r [peak_at "global" "g1" 20 18 22] -> ptm r = "global").
  { intros r [<-|[]]. reflexivity. }
  split; [exact NE|]. split; [exact G|].
  exact (main_needs_a_channel [peak_at "global" "g1" 20 18 22] 3 NE G).
Defined.
